(** * caddy-docker-upstreams: the discovery-and-resolution core of upstreams.go

    A shallow embedding of [match], [toUpstream], [GetUpstreams] and
    [keepUpdated], with the package-level address cache, the snapshot held by
    the [Upstreams] struct and the logger as explicit state.

    Go maps used as dictionaries ([container.Labels], [addresses]) are stdpp
    [gmap]s.  A map that the code only ranges over ([Networks], [matchers]) is
    the list of its entries in the order the [range] statement yields them;
    run one call after the other, the code ranges over the networks of a
    record at most once, so a record carries that order with it.
    Pointers to [reverseproxy.Upstream] are indices into the list of allocated
    objects, so that two targets with the same dial string stay
    distinguishable. *)

From Stdlib Require Import Ascii ZArith.
From stdpp Require Import gmap strings list fin_maps.

(** The Go package. *)
Module caddy_docker_upstreams.

(** ** Constants (upstreams.go, lines 21-26) *)

Definition LabelEnable : string := "com.caddyserver.http.enable".
Definition LabelMatchHost : string := "com.caddyserver.http.matchers.host".
Definition LabelMatchPath : string := "com.caddyserver.http.matchers.path".
Definition LabelUpstreamPort : string := "com.caddyserver.http.upstream.port".

(** ** Data model *)

(** Modelled from the spec: the projection of Docker's
    [network.EndpointSettings] that the code reads (section 3, "assigned IP
    address"); the type is declared in the Docker client library. *)
Record EndpointSettings := mkEndpoint { IPAddress : string }.

(** Modelled from the spec: the projection of Docker's [types.Container]
    (section 3, Container Record): identity, labels, and the network
    attachments as (network name, endpoint) pairs in the order in which
    ranging over [container.NetworkSettings.Networks] yields them.  The
    pointers [NetworkSettings] and, per attachment, [*EndpointSettings] are
    the ones a listing fills in, hence not nil. *)
Record Container := mkContainer {
  ID : string;
  Labels : gmap string string;
  Networks : list (string * EndpointSettings)
}.

(** [reverseproxy.Upstream], of which the code sets the [Dial] field only. *)
Record Upstream := mkUpstream { Dial : string }.

(** A [*reverseproxy.Upstream]: the position of the object among the
    allocated ones. *)
Definition ptr := nat.

(** Go [error] values, as far as the code builds or inspects them. *)
Inductive error :=
  | errors_New (msg : string)
  | context_Canceled
  | context_DeadlineExceeded
  | wrapError (msg : string) (inner : error).

(** [errors.Is(err, context.Canceled)]: walks the chain of wrapped errors. *)
Fixpoint errors_Is_Canceled (err : error) : bool :=
  match err with
  | context_Canceled => true
  | wrapError _ inner => errors_Is_Canceled inner
  | _ => false
  end.

(** The result of a Go function returning [(T, error)]. *)
Inductive result (A : Type) :=
  | Ok (a : A)
  | Err (err : error).
Arguments Ok {A} a.
Arguments Err {A} err.

(** zap log entries written through [u.logger]. *)
Inductive Level := ErrorLevel | WarnLevel | InfoLevel.
Inductive Field :=
  | zap_Error (err : error)
  | zap_String (key val : string).
Record LogEntry := mkLog { level : Level; message : string; field : Field }.

(** The package variables [addresses] (line 147) with the [Upstream] objects
    allocated so far.  [addressesMu] guards each access for the length of one
    map operation, so every access is one atomic step and the mutex itself
    carries no state between steps. *)
Record Globals := mkGlobals {
  addresses : gmap string ptr;
  heap : list Upstream
}.

(** The [Upstreams] struct (lines 33-38); [mu] is the number of read locks
    currently held on the [sync.RWMutex]. *)
Record Upstreams := mkUpstreams {
  logger : list LogEntry;
  mu : nat;
  containers : list Container
}.

Definition ErrNoPort : error :=
  errors_New "unable to get port from container labels".
Definition ErrNoAddress : error :=
  errors_New "unable to get ip address from container networks".

(** ** net.JoinHostPort (Go standard library)

    A host containing a colon is taken for an IPv6 literal and bracketed. *)

Fixpoint has_colon (s : string) : bool :=
  match s with
  | EmptyString => false
  | String a s' => if Ascii.eqb a ":"%char then true else has_colon s'
  end.

Definition JoinHostPort (host port : string) : string :=
  if has_colon host then "[" +:+ host +:+ "]:" +:+ port
  else host +:+ ":" +:+ port.

(** ** toUpstream (lines 151-177) *)

(** [&reverseproxy.Upstream{Dial: address}]: a fresh object. *)
Definition new_Upstream (address : string) (h : list Upstream)
  : ptr * list Upstream :=
  (length h, h ++ [mkUpstream address]).

(** Lines 152-154: the lookup under the read lock. *)
Definition toUpstream_lookup (container : Container) (g : Globals)
  : option ptr :=
  addresses g !! ID container.

(** Lines 159-176: what runs after a miss.  The loop over the networks
    returns in its first iteration, so only the head of the range order is
    ever read. *)
Definition toUpstream_miss (container : Container) (g : Globals)
  : result ptr * Globals :=
  match Labels container !! LabelUpstreamPort with
  | None => (Err ErrNoPort, g)
  | Some port =>
      match Networks container with
      | (_, network) :: _ =>
          let address := JoinHostPort (IPAddress network) port in
          let '(upstream, h) := new_Upstream address (heap g) in
          (Ok upstream,
           {| addresses := <[ID container := upstream]> (addresses g);
              heap := h |})
      | [] => (Err ErrNoAddress, g)
      end
  end.

Definition toUpstream (container : Container) (g : Globals)
  : result ptr * Globals :=
  match toUpstream_lookup container g with
  | Some cached => (Ok cached, g)
  | None => toUpstream_miss container g
  end.

(** ** sync.RWMutex on [u.mu] *)

Definition RLock (u : Upstreams) : Upstreams :=
  {| logger := logger u; mu := S (mu u); containers := containers u |}.

Definition RUnlock (u : Upstreams) : Upstreams :=
  {| logger := logger u; mu := pred (mu u); containers := containers u |}.

Definition log_write (e : LogEntry) (u : Upstreams) : Upstreams :=
  {| logger := logger u ++ [e]; mu := mu u; containers := containers u |}.

Definition set_containers (l : list Container) (u : Upstreams) : Upstreams :=
  {| logger := logger u; mu := mu u; containers := l |}.

Definition WarnNoUpstream (err : error) : LogEntry :=
  mkLog WarnLevel "unable to get upstream from container" (zap_Error err).
Definition ErrorNoList (err : error) : LogEntry :=
  mkLog ErrorLevel "unable to get the list of containers" (zap_Error err).
Definition WarnNoEvents (err : error) : LogEntry :=
  mkLog WarnLevel "unable to monitor container events; will retry"
    (zap_Error err).
Definition InfoConnected (api_version : string) : LogEntry :=
  mkLog InfoLevel "docker engine is connected"
    (zap_String "api_version" api_version).

Section Provider.

(** The request type and the two Caddy matchers are declared in Caddy's
    [caddyhttp] package; [MatchHost vs r] stands for
    [caddyhttp.MatchHost(vs).Match(r)], and likewise for paths. *)
Context {Request : Type}.
Variable MatchHost : list string → Request → bool.
Variable MatchPath : list string → Request → bool.

(** ** The matcher registry (lines 116-124) *)

Definition matchers : list (string * (string → Request → bool)) :=
  [ (LabelMatchHost, λ value, MatchHost [value]);
    (LabelMatchPath, λ value, MatchPath [value]) ].

(** ** match (lines 126-144) *)

(** The loop of lines 131-141 over the registry entries [ms], in the order
    the [range] yields them. *)
Fixpoint match_range (ms : list (string * (string → Request → bool)))
    (r : Request) (container : Container) : bool :=
  match ms with
  | [] => true
  | (key, matcher) :: ms' =>
      match Labels container !! key with
      | None => match_range ms' r container
      | Some value =>
          if matcher value r then match_range ms' r container else false
      end
  end.

Definition match_in (ms : list (string * (string → Request → bool)))
    (r : Request) (container : Container) : bool :=
  match Labels container !! LabelEnable with
  | Some enable =>
      if String.eqb enable "true" then match_range ms r container else false
  | None => false
  end.

Definition match_ (r : Request) (container : Container) : bool :=
  match_in matchers r container.

(** ** GetUpstreams (lines 179-200) *)

(** The loop of lines 185-197 over the remaining containers. *)
Fixpoint GetUpstreams_loop (r : Request) (cs : list Container)
    (upstreams : list ptr) (u : Upstreams) (g : Globals)
  : list ptr * Upstreams * Globals :=
  match cs with
  | [] => (upstreams, u, g)
  | container :: cs' =>
      if match_ r container then
        match toUpstream container g with
        | (Ok upstream, g') =>
            GetUpstreams_loop r cs' (upstreams ++ [upstream]) u g'
        | (Err err, g') =>
            GetUpstreams_loop r cs' upstreams
              (log_write (WarnNoUpstream err) u) g'
        end
      else GetUpstreams_loop r cs' upstreams u g
  end.

(** The whole call, run without interruption; [None] is Go's nil error. *)
Definition GetUpstreams (r : Request) (u : Upstreams) (g : Globals)
  : (list ptr * option error) * Upstreams * Globals :=
  let u1 := RLock u in
  let '(upstreams, u2, g') := GetUpstreams_loop r (containers u1) [] u1 g in
  ((upstreams, None), RUnlock u2, g').

(** The dial strings behind a list of returned pointers. *)
Definition dials (g : Globals) (upstreams : list ptr) : list (option string) :=
  map (λ p, Dial <$> heap g !! p) upstreams.

(** ** One invocation of GetUpstreams, step by step

    Between two shared-memory accesses other goroutines may run.  An
    invocation is cut at each of them: taking the read lock, reading
    [u.containers] for the [range], the cache lookup of [toUpstream], the
    insertion after a miss (or the log write when resolution fails), and the
    deferred unlock.  [slice] and [i] are the operand and the index of the
    [range] statement, which Go evaluates once before the first iteration. *)

Inductive RequestPc :=
  | G_RLock (r : Request)
  | G_Range (r : Request)
  | G_Loop (r : Request) (slice : list Container) (i : nat)
      (upstreams : list ptr)
  | G_Miss (r : Request) (slice : list Container) (i : nat)
      (upstreams : list ptr) (container : Container)
  | G_Return (r : Request) (slice : list Container)
      (upstreams : list ptr).

Definition GetUpstreams_step (pc : RequestPc) (u : Upstreams) (g : Globals)
  : option (RequestPc * Upstreams * Globals) :=
  match pc with
  | G_RLock r => Some (G_Range r, RLock u, g)
  | G_Range r => Some (G_Loop r (containers u) 0 [], u, g)
  | G_Loop r slice i upstreams =>
      match slice !! i with
      | None => Some (G_Return r slice upstreams, RUnlock u, g)
      | Some container =>
          if match_ r container then
            match toUpstream_lookup container g with
            | Some cached =>
                Some (G_Loop r slice (S i) (upstreams ++ [cached]), u, g)
            | None => Some (G_Miss r slice i upstreams container, u, g)
            end
          else Some (G_Loop r slice (S i) upstreams, u, g)
      end
  | G_Miss r slice i upstreams container =>
      match toUpstream_miss container g with
      | (Ok upstream, g') =>
          Some (G_Loop r slice (S i) (upstreams ++ [upstream]), u, g')
      | (Err err, g') =>
          Some (G_Loop r slice (S i) upstreams,
                log_write (WarnNoUpstream err) u, g')
      end
  | G_Return _ _ _ => None
  end.

(** An invocation run on its own for at most [fuel] steps. *)
Fixpoint GetUpstreams_run (fuel : nat)
    (st : RequestPc * Upstreams * Globals)
  : RequestPc * Upstreams * Globals :=
  match fuel with
  | 0 => st
  | S fuel' =>
      match GetUpstreams_step st.1.1 st.1.2 st.2 with
      | Some st' => GetUpstreams_run fuel' st'
      | None => st
      end
  end.

(** Whether the invocation holds the read lock on [u.mu]. *)
Definition holds_rlock (pc : RequestPc) : bool :=
  match pc with
  | G_Range _ | G_Loop _ _ _ _ | G_Miss _ _ _ _ _ => true
  | G_RLock _ | G_Return _ _ _ => false
  end.

(** The list the invocation ranges, or has ranged, over. *)
Definition iterated (pc : RequestPc) : option (list Container) :=
  match pc with
  | G_Loop _ slice _ _ | G_Miss _ slice _ _ _ | G_Return _ slice _ =>
      Some slice
  | G_RLock _ | G_Range _ => None
  end.

Definition returned (pc : RequestPc) : option (list ptr) :=
  match pc with
  | G_Return _ _ upstreams => Some upstreams
  | _ => None
  end.

(** ** keepUpdated (lines 47-84)

    The watcher reacts to what the Docker client and the context deliver.
    Each event below is one thing the goroutine can observe at a blocking
    point; a message comes with the outcome of the [ContainerList] call that
    the code makes on receiving it. *)

Definition Millisecond : Z := 1000000.

Inductive WatcherPc :=
  | W_Events
  | W_Select
  | W_Lock (listing : list Container)
  | W_Backoff (d : Z)
  | W_Return.

Inductive WatcherEvent :=
  | Ev_Subscribed
  | Ev_Message (listing : result (list Container))
  | Ev_Error (err : error)
  | Ev_Locked
  | Ev_CtxDone
  | Ev_Timer.

Definition keepUpdated_step (ev : WatcherEvent) (pc : WatcherPc)
    (u : Upstreams) : option (WatcherPc * Upstreams) :=
  match pc, ev with
  | W_Events, Ev_Subscribed => Some (W_Select, u)
  | W_Select, Ev_Message (Err err) =>
      Some (W_Select, log_write (ErrorNoList err) u)
  | W_Select, Ev_Message (Ok listing) => Some (W_Lock listing, u)
  | W_Lock listing, Ev_Locked =>
      if decide (mu u = 0) then Some (W_Select, set_containers listing u)
      else None
  | W_Select, Ev_Error err =>
      if errors_Is_Canceled err then Some (W_Return, u)
      else Some (W_Backoff (500 * Millisecond)%Z,
                 log_write (WarnNoEvents err) u)
  | W_Backoff _, Ev_CtxDone => Some (W_Return, u)
  | W_Backoff _, Ev_Timer => Some (W_Events, u)
  | _, _ => None
  end.

Fixpoint keepUpdated_run (evs : list WatcherEvent) (pc : WatcherPc)
    (u : Upstreams) : option (WatcherPc * Upstreams) :=
  match evs with
  | [] => Some (pc, u)
  | ev :: evs' =>
      match keepUpdated_step ev pc u with
      | Some (pc', u') => keepUpdated_run evs' pc' u'
      | None => None
      end
  end.

(** One failed subscription: the error, the backoff running out, and the
    next call of [cli.Events]. *)
Definition retry_round (err : error) : list WatcherEvent :=
  [Ev_Error err; Ev_Timer; Ev_Subscribed].

(** ** The running module: watcher and request goroutines interleaved *)

Record System := mkSystem {
  sys_u : Upstreams;
  sys_g : Globals;
  sys_watcher : WatcherPc;
  sys_requests : list RequestPc
}.

Inductive Action :=
  | A_Watcher (ev : WatcherEvent)
  | A_Request (r : Request)
  | A_Run (i : nat).

Definition system_step (a : Action) (s : System) : option System :=
  match a with
  | A_Watcher ev =>
      match keepUpdated_step ev (sys_watcher s) (sys_u s) with
      | Some (pc, u) => Some (mkSystem u (sys_g s) pc (sys_requests s))
      | None => None
      end
  | A_Request r =>
      Some (mkSystem (sys_u s) (sys_g s) (sys_watcher s)
              (sys_requests s ++ [G_RLock r]))
  | A_Run i =>
      match sys_requests s !! i with
      | Some pc =>
          match GetUpstreams_step pc (sys_u s) (sys_g s) with
          | Some (pc', u, g) =>
              Some (mkSystem u g (sys_watcher s)
                      (<[i := pc']> (sys_requests s)))
          | None => None
          end
      | None => None
      end
  end.

Fixpoint system_run (tr : list Action) (s : System) : option System :=
  match tr with
  | [] => Some s
  | a :: tr' =>
      match system_step a s with
      | Some s' => system_run tr' s'
      | None => None
      end
  end.

(** The module once Provision has succeeded: the snapshot is assigned at
    line 109 and the watcher launched at line 111. *)
Definition provisioned (api_version : string) (listing : list Container)
    (g : Globals) : System :=
  mkSystem (mkUpstreams [InfoConnected api_version] 0 listing) g W_Events [].

(** Provision (lines 86-114), given the outcomes of creating the client, of
    the ping (the negotiated API version) and of the first listing: the first
    failure is returned and nothing is started. *)
Definition Provision (cli : result unit) (ping : result string)
    (listing : result (list Container)) (g : Globals) : result System :=
  match cli with
  | Err err => Err err
  | Ok _ =>
      match ping with
      | Err err => Err err
      | Ok api_version =>
          match listing with
          | Err err => Err err
          | Ok containers => Ok (provisioned api_version containers g)
          end
      end
  end.

(** The result of every successful listing call of a run: the one of
    Provision, then those the watcher made. *)
Definition listed (a : Action) : option (list Container) :=
  match a with
  | A_Watcher (Ev_Message (Ok listing)) => Some listing
  | _ => None
  end.

Definition listings (first : list Container) (tr : list Action)
  : list (list Container) :=
  first :: omap listed tr.

(** The number of invocations that hold the read lock. *)
Definition holding (pc : RequestPc) : nat := if holds_rlock pc then 1 else 0.
Definition readers (reqs : list RequestPc) : nat := sum_list_with holding reqs.

(** What the lock on [u.mu] maintains along a run [tr] that started with the
    listing [first]: the lock count is the number of invocations inside their
    critical section; the snapshot, the list the watcher is about to
    install, and every list an invocation ranges over are each the result of
    one listing call; and an invocation inside its critical section ranges
    over the snapshot that is current. *)
Definition snapshot_inv (first : list Container) (tr : list Action)
    (s : System) : Prop :=
  mu (sys_u s) = readers (sys_requests s) ∧
  containers (sys_u s) ∈ listings first tr ∧
  (∀ listing, sys_watcher s = W_Lock listing → listing ∈ listings first tr) ∧
  (∀ i pc slice,
     sys_requests s !! i = Some pc → iterated pc = Some slice →
     slice ∈ listings first tr ∧
     (holds_rlock pc = true → slice = containers (sys_u s))).

(** ** Resolution described without the cache contents

    Whether [toUpstream] succeeds depends on the cache only through its key
    set.  [derivable] says that the miss path yields a target; [resolves]
    that the call succeeds when the identities in [known] are cached. *)

Definition derivable (container : Container) : bool :=
  match Labels container !! LabelUpstreamPort, Networks container with
  | Some _, _ :: _ => true
  | _, _ => false
  end.

Definition resolves (known : gset string) (container : Container) : bool :=
  bool_decide (ID container ∈ known) || derivable container.

(** The error of the miss path of a container that is not [derivable]. *)
Definition miss_error (container : Container) : error :=
  match Labels container !! LabelUpstreamPort with
  | None => ErrNoPort
  | Some _ => ErrNoAddress
  end.

(** The containers of [cs] that a request gets a target for, in snapshot
    order, when the identities in [known] are cached at the start. *)
Fixpoint accepted (r : Request) (known : gset string) (cs : list Container)
  : list Container :=
  match cs with
  | [] => []
  | c :: cs' =>
      if match_ r c then
        if resolves known c then c :: accepted r ({[ID c]} ∪ known) cs'
        else accepted r known cs'
      else accepted r known cs'
  end.

(** The warnings written for the matching containers that are skipped. *)
Fixpoint warnings (r : Request) (known : gset string) (cs : list Container)
  : list LogEntry :=
  match cs with
  | [] => []
  | c :: cs' =>
      if match_ r c then
        if resolves known c then warnings r ({[ID c]} ∪ known) cs'
        else WarnNoUpstream (miss_error c) :: warnings r known cs'
      else warnings r known cs'
  end.

(** Resolving a sequence of containers one call after the other. *)
Definition resolve_all (cs : list Container) (g : Globals) : Globals :=
  foldl (λ g c, (toUpstream c g).2) g cs.

(** ** The resolver as section 4.2 of the specification words it

    "Iterate the container's network attachments and take the first one
    yielding a non-empty IP address"; "if no network attachment yields a
    usable address, return a resolution error". *)

Fixpoint first_usable (nets : list (string * EndpointSettings))
  : option string :=
  match nets with
  | [] => None
  | (_, network) :: nets' =>
      if String.eqb (IPAddress network) "" then first_usable nets'
      else Some (IPAddress network)
  end.

Definition toUpstream_as_specified (container : Container) (g : Globals)
  : result ptr * Globals :=
  match addresses g !! ID container with
  | Some cached => (Ok cached, g)
  | None =>
      match Labels container !! LabelUpstreamPort with
      | None => (Err ErrNoPort, g)
      | Some port =>
          match first_usable (Networks container) with
          | Some ip =>
              let '(upstream, h) := new_Upstream (JoinHostPort ip port) (heap g) in
              (Ok upstream,
               {| addresses := <[ID container := upstream]> (addresses g);
                  heap := h |})
          | None => (Err ErrNoAddress, g)
          end
      end
  end.

End Provider.

End caddy_docker_upstreams.

Import caddy_docker_upstreams.

(** ** The watcher's view of the snapshot *)

(** The listing a watcher event delivers, if it delivers one. *)
Definition ev_listing (ev : WatcherEvent) : option (list Container) :=
  match ev with
  | Ev_Message (Ok listing) => Some listing
  | _ => None
  end.

(** The snapshot as it is once the watcher is back in its select loop: the
    listing it holds while it waits for the write lock, else [u.containers]. *)
Definition next_snapshot (pc : WatcherPc) (u : Upstreams) : list Container :=
  match pc with
  | W_Lock listing => listing
  | _ => containers u
  end.

(** The three labels [match] reads. *)
Definition match_labels : list string :=
  [LabelEnable; LabelMatchHost; LabelMatchPath].

(** ** Concrete containers, requests and schedules *)

Module Scenario.

(** A request reduced to its host and path, with matchers that accept a
    request when the value is among the listed ones. *)
Definition Req : Type := string * string.
Definition hostIs (vs : list string) (r : Req) : bool := bool_decide (r.1 ∈ vs).
Definition pathIs (vs : list string) (r : Req) : bool := bool_decide (r.2 ∈ vs).

Definition fresh : Globals := {| addresses := ∅; heap := [] |}.

Definition labelsA : gmap string string :=
  <[LabelEnable := "true"]> (<[LabelUpstreamPort := "8080"]> ∅).
Definition labelsB : gmap string string :=
  <[LabelEnable := "true"]> (<[LabelMatchHost := "example.com"]>
    (<[LabelUpstreamPort := "9090"]> ∅)).

(** Containers A and B of the end-to-end scenarios 1 and 2. *)
Definition cA : Container :=
  mkContainer "a" labelsA [("bridge", mkEndpoint "10.0.0.5")].
Definition cB : Container :=
  mkContainer "b" labelsB [("bridge", mkEndpoint "10.0.0.6")].

(** Enabled, with a port, attached to one network that has no address yet. *)
Definition cNoIP : Container :=
  mkContainer "n" labelsA [("bridge", mkEndpoint "")].

(** Enabled, with a port, the first attachment without address. *)
Definition cSecondIP : Container :=
  mkContainer "s" labelsA
    [("none", mkEndpoint ""); ("bridge", mkEndpoint "10.0.0.7")].

(** Enabled, with a port, attached to no network. *)
Definition cNoNet : Container := mkContainer "d" labelsA [].

(** Enabled, without the port label. *)
Definition cNoPort : Container :=
  mkContainer "p" (<[LabelEnable := "true"]> ∅)
    [("bridge", mkEndpoint "10.0.0.8")].

(** The enable label set to something else than "true". *)
Definition cOff : Container :=
  mkContainer "o" (<[LabelEnable := "yes"]> (<[LabelUpstreamPort := "80"]> ∅))
    [("bridge", mkEndpoint "10.0.0.9")].

(** Container A as a later listing reports it: other port, other address. *)
Definition cA' : Container :=
  mkContainer "a" (<[LabelEnable := "true"]> ∅) [].

(** The cache after container A has been resolved once. *)
Definition gA : Globals :=
  {| addresses := <["a" := 0]> ∅; heap := [mkUpstream "10.0.0.5:8080"] |}.

(** Subscription errors that are not a cancellation. *)
Definition failures : list error :=
  [ errors_New "unexpected EOF"; context_DeadlineExceeded;
    wrapError "events" (errors_New "connection refused") ].

Definition anyReq : Req := ("example.com", "/").
Definition otherReq : Req := ("other.com", "/").

(** Two requests arrive while container A is not cached.  Both look the
    identity up before either inserts.  (Both then range over the networks
    of the same record; Go may yield them in another order the second time,
    which a record with one attachment does not show.) *)
Definition race_lookups : list (@Action Req) :=
  [ A_Request anyReq; A_Request anyReq;
    A_Run 0; A_Run 0; A_Run 0;
    A_Run 1; A_Run 1; A_Run 1 ].
Definition race_first_insert : list (@Action Req) := race_lookups ++ [A_Run 0].
Definition race_second_insert : list (@Action Req) :=
  race_first_insert ++ [A_Run 1].

(** A run in which the snapshot is replaced between two requests. *)
Definition replace_run : list (@Action Req) :=
  [ A_Request anyReq; A_Run 0; A_Run 0; A_Run 0; A_Run 0; A_Run 0;
    A_Watcher Ev_Subscribed; A_Watcher (Ev_Message (Ok [cB]));
    A_Watcher Ev_Locked;
    A_Request anyReq; A_Run 1; A_Run 1; A_Run 1; A_Run 1; A_Run 1 ].

(** The same start, the watcher trying to install the new listing while the
    first request is still in its loop. *)
Definition early_install : list (@Action Req) :=
  [ A_Request anyReq; A_Run 0; A_Run 0;
    A_Watcher Ev_Subscribed; A_Watcher (Ev_Message (Ok [cB]));
    A_Watcher Ev_Locked ].

(** Container A with labels of other tools besides its own. *)
Definition cA_labelled : Container :=
  mkContainer "a"
    (<["com.docker.compose.project" := "shop"]>
       (<["com.caddyserver.http.matchers.method" := "GET"]> labelsA))
    [("bridge", mkEndpoint "10.0.0.5")].

(** A watcher's morning: a listing installed, a failed re-list, a broken
    subscription, and another listing installed after the retry. *)
Definition watched : list WatcherEvent :=
  [ Ev_Subscribed; Ev_Message (Ok [cA; cB]); Ev_Locked;
    Ev_Message (Err (errors_New "timeout")) ] ++
  retry_round (errors_New "unexpected EOF") ++
  [ Ev_Message (Ok [cB]); Ev_Locked ].

(** A request still in its loop while the watcher holds a new listing. *)
Definition install_pending : list (@Action Req) :=
  [ A_Watcher Ev_Subscribed; A_Request anyReq; A_Run 0; A_Run 0;
    A_Watcher (Ev_Message (Ok [cB])) ].
Definition install_ready : list (@Action Req) :=
  install_pending ++ [A_Run 0; A_Run 0; A_Run 0].

(** Where [watched] leaves a module that started with container A. *)
Definition watched_end : Upstreams :=
  mkUpstreams
    [ErrorNoList (errors_New "timeout");
     WarnNoEvents (errors_New "unexpected EOF")] 0 [cB].

(** Where [install_ready] ends: the request has returned, the watcher still
    waits for the write lock. *)
Definition waiting : @System Req :=
  mkSystem (mkUpstreams [InfoConnected "1.43"] 0 [cA]) gA (W_Lock [cB])
    [G_Return anyReq [cA] [0]].

(** A snapshot of three containers with distinct identities. *)
Definition three : Upstreams := mkUpstreams [] 0 [cNoPort; cA; cB].

(** The module right after Provision listed container A. *)
Definition started : @System Req := provisioned "1.43" [cA] fresh.

(** Where [replace_run] ends. *)
Definition replaced : @System Req :=
  mkSystem (mkUpstreams [InfoConnected "1.43"] 0 [cB])
    {| addresses := <["b" := 1]> (<["a" := 0]> ∅);
       heap := [mkUpstream "10.0.0.5:8080"; mkUpstream "10.0.0.6:9090"] |}
    W_Select
    [G_Return anyReq [cA] [0]; G_Return anyReq [cB] [1]].

(** The cache entries and the allocated targets after a run from
    [started], and what the invocations have returned by then. *)
Definition cache_after (tr : list (@Action Req))
  : option (list (string * ptr) * list Upstream) :=
  (λ s, (map_to_list (addresses (sys_g s)), heap (sys_g s))) <$>
  system_run hostIs pathIs tr started.

Definition returned_after (tr : list (@Action Req))
  : option (list (option (list ptr))) :=
  (λ s, returned <$> sys_requests s) <$> system_run hostIs pathIs tr started.

(** Both racing invocations return; then a third request is served. *)
Definition race_then_third : list (@Action Req) :=
  race_second_insert ++
  [ A_Run 0; A_Run 1; A_Request anyReq; A_Run 2; A_Run 2; A_Run 2; A_Run 2 ].

End Scenario.

(** * Properties *)

(** ** net.JoinHostPort and errors.Is *)

Lemma JoinHostPort_plain host port :
  has_colon host = false → JoinHostPort host port = host +:+ ":" +:+ port.
Proof. unfold JoinHostPort. by intros ->. Qed.

Lemma JoinHostPort_empty_host port : JoinHostPort "" port = ":" +:+ port.
Proof. reflexivity. Qed.

Lemma errors_Is_Canceled_wrap msg err :
  errors_Is_Canceled (wrapError msg err) = errors_Is_Canceled err.
Proof. reflexivity. Qed.

(** ** match *)

Section MatchFacts.
Context {Request : Type}.
Variables MatchHost MatchPath : list string → Request → bool.

Local Abbreviation matchers := (matchers MatchHost MatchPath).
Local Abbreviation match_ := (match_ MatchHost MatchPath).

(** The loop accepts exactly when every registered matcher whose label is
    present accepts: a conjunction, whatever the order of the range. *)
Lemma match_range_true ms (r : Request) c :
  match_range ms r c = true ↔
  ∀ key matcher value,
    (key, matcher) ∈ ms → Labels c !! key = Some value →
    matcher value r = true.
Proof.
  induction ms as [|[key matcher] ms IH]; simpl.
  - split; [|done]. intros _ ??? Hin. by apply elem_of_nil in Hin.
  - destruct (Labels c !! key) as [value|] eqn:Hkey.
    + destruct (matcher value r) eqn:Hm.
      * rewrite IH. split.
        -- intros H k m v Hin Hk. apply elem_of_cons in Hin as [Heq|Hin].
           ++ injection Heq as -> ->. congruence.
           ++ eauto.
        -- intros H k m v Hin. apply H. by apply elem_of_cons; right.
      * split; [done|]. intros H.
        rewrite <- Hm. eapply H; [apply elem_of_cons; by left | done].
    + rewrite IH. split.
      * intros H k m v Hin Hk. apply elem_of_cons in Hin as [Heq|Hin].
        -- injection Heq as -> ->. congruence.
        -- eauto.
      * intros H k m v Hin. apply H. by apply elem_of_cons; right.
Qed.

(** Go leaves the order in which [range matchers] visits the registry
    unspecified; the outcome of [match] does not depend on it. *)
Lemma match_in_order_irrelevant ms (r : Request) c :
  ms ≡ₚ matchers → match_in ms r c = match_ r c.
Proof.
  intros Hperm. unfold caddy_docker_upstreams.match_, match_in.
  destruct (Labels c !! LabelEnable) as [enable|]; [|done].
  destruct (String.eqb enable "true"); [|done].
  apply eq_true_iff_eq. rewrite !match_range_true.
  split; intros H k m v Hin; apply H.
  - by rewrite Hperm.
  - by rewrite <- Hperm.
Qed.

Lemma match_true_enabled (r : Request) c :
  match_ r c = true → Labels c !! LabelEnable = Some "true".
Proof.
  unfold caddy_docker_upstreams.match_, match_in.
  destruct (Labels c !! LabelEnable) as [enable|]; [|done].
  destruct (String.eqb enable "true") eqn:He; [|done].
  by apply String.eqb_eq in He as ->.
Qed.

Lemma match_enabled (r : Request) c :
  Labels c !! LabelEnable = Some "true" →
  match_ r c = match_range matchers r c.
Proof. unfold caddy_docker_upstreams.match_, match_in. by intros ->. Qed.

(** C4. A container whose labels lack the enable key, or map it to a string
    other than "true", matches no request. *)
Theorem match_not_enabled (r : Request) (c : Container) :
  (Labels c !! LabelEnable = None ∨
   ∃ value, Labels c !! LabelEnable = Some value ∧ value ≠ "true") →
  match_ r c = false.
Proof.
  intros H. destruct (match_ r c) eqn:Hm; [|done].
  apply match_true_enabled in Hm.
  destruct H as [H|(value & H & Hne)]; congruence.
Qed.

(** C5. A container whose enable label is "true" and that carries neither
    the host-match nor the path-match label matches every request. *)
Theorem match_enabled_without_matchers (r : Request) (c : Container) :
  Labels c !! LabelEnable = Some "true" →
  Labels c !! LabelMatchHost = None →
  Labels c !! LabelMatchPath = None →
  match_ r c = true.
Proof.
  intros He Hh Hp. rewrite (match_enabled _ _ He).
  simpl. by rewrite Hh, Hp.
Qed.

(** With the host-match label alone, [match] is the host matcher's verdict
    on the label value. *)
Lemma match_host_only (r : Request) c value :
  Labels c !! LabelEnable = Some "true" →
  Labels c !! LabelMatchHost = Some value →
  Labels c !! LabelMatchPath = None →
  match_ r c = MatchHost [value] r.
Proof.
  intros He Hh Hp. rewrite (match_enabled _ _ He).
  simpl. rewrite Hh, Hp. by destruct (MatchHost [value] r).
Qed.

End MatchFacts.

(** ** toUpstream *)

Lemma toUpstream_hit c g p :
  addresses g !! ID c = Some p → toUpstream c g = (Ok p, g).
Proof. unfold toUpstream, toUpstream_lookup. by intros ->. Qed.

Lemma toUpstream_on_miss c g :
  addresses g !! ID c = None → toUpstream c g = toUpstream_miss c g.
Proof. unfold toUpstream, toUpstream_lookup. by intros ->. Qed.

Lemma toUpstream_miss_derivable c g :
  derivable c = true →
  ∃ port name network rest,
    Labels c !! LabelUpstreamPort = Some port ∧
    Networks c = (name, network) :: rest ∧
    toUpstream_miss c g =
      (Ok (length (heap g)),
       {| addresses := <[ID c := length (heap g)]> (addresses g);
          heap := heap g ++ [mkUpstream (JoinHostPort (IPAddress network) port)] |}).
Proof.
  unfold derivable, toUpstream_miss. intros H.
  destruct (Labels c !! LabelUpstreamPort) as [port|]; [|done].
  destruct (Networks c) as [|[name network] rest]; [done|].
  by exists port, name, network, rest.
Qed.

Lemma toUpstream_miss_not_derivable c g :
  derivable c = false → toUpstream_miss c g = (Err (miss_error c), g).
Proof.
  unfold derivable, toUpstream_miss, miss_error. intros H.
  destruct (Labels c !! LabelUpstreamPort) as [port|]; [|done].
  by destruct (Networks c) as [|[name network] rest].
Qed.

(** A failed call leaves cache and heap as they were. *)
Lemma toUpstream_Err c g err g' :
  toUpstream c g = (Err err, g') →
  g' = g ∧ err = miss_error c ∧ addresses g !! ID c = None ∧
  derivable c = false.
Proof.
  intros H. destruct (addresses g !! ID c) as [p|] eqn:Hc.
  { by rewrite (toUpstream_hit _ _ _ Hc) in H. }
  rewrite (toUpstream_on_miss _ _ Hc) in H.
  destruct (derivable c) eqn:Hd.
  - destruct (toUpstream_miss_derivable c g Hd) as (?&?&?&?&_&_&Heq).
    by rewrite Heq in H.
  - rewrite (toUpstream_miss_not_derivable _ _ Hd) in H. by injection H as <- <-.
Qed.

(** A successful call leaves the returned pointer cached under the
    identity, and touches no other identity. *)
Lemma toUpstream_Ok c g p g' :
  toUpstream c g = (Ok p, g') →
  addresses g' !! ID c = Some p ∧
  (∀ id, id ≠ ID c → addresses g' !! id = addresses g !! id) ∧
  (addresses g !! ID c = Some p ∧ g' = g ∨
   addresses g !! ID c = None ∧ derivable c = true ∧ p = length (heap g) ∧
   addresses g' = <[ID c := p]> (addresses g)).
Proof.
  intros H. destruct (addresses g !! ID c) as [q|] eqn:Hc.
  { rewrite (toUpstream_hit _ _ _ Hc) in H. injection H as <- <-.
    split; [done|]. split; [done|]. by left. }
  rewrite (toUpstream_on_miss _ _ Hc) in H.
  destruct (derivable c) eqn:Hd.
  - destruct (toUpstream_miss_derivable c g Hd) as (?&?&?&?&_&_&Heq).
    rewrite Heq in H. injection H as <- <-. simpl.
    split; [apply lookup_insert_eq|].
    split; [intros id Hid; by apply lookup_insert_ne|]. by right.
  - by rewrite (toUpstream_miss_not_derivable _ _ Hd) in H.
Qed.

(** Run one call after the other, [toUpstream] never replaces an entry. *)
Lemma toUpstream_keeps c g id p :
  addresses g !! id = Some p → addresses (toUpstream c g).2 !! id = Some p.
Proof.
  intros Hid. destruct (toUpstream c g) as [[q|err] g'] eqn:H; simpl.
  - apply toUpstream_Ok in H as (Hq & Hother & Hcase).
    destruct (decide (id = ID c)) as [->|Hne].
    + destruct Hcase as [[? ->]|[? _]]; congruence.
    + by rewrite Hother.
  - by apply toUpstream_Err in H as (-> & _).
Qed.

Lemma toUpstream_heap_grows c g :
  heap g `prefix_of` heap (toUpstream c g).2.
Proof.
  unfold toUpstream. destruct (toUpstream_lookup c g); simpl; [done|].
  unfold toUpstream_miss.
  destruct (Labels c !! LabelUpstreamPort); [|done].
  destruct (Networks c) as [|[??] ?]; simpl; [done|].
  by apply prefix_app_r.
Qed.

Lemma resolve_all_keeps cs g id p :
  addresses g !! id = Some p → addresses (resolve_all cs g) !! id = Some p.
Proof.
  revert g. induction cs as [|c cs IH]; intros g H; simpl; [done|].
  apply IH. by apply toUpstream_keeps.
Qed.

(** Whether the call succeeds is decided by the key set of the cache. *)
Lemma toUpstream_resolves c g :
  resolves (dom (addresses g)) c = true ↔ ∃ p, (toUpstream c g).1 = Ok p.
Proof.
  unfold resolves. destruct (addresses g !! ID c) as [q|] eqn:Hc.
  - rewrite (toUpstream_hit _ _ _ Hc). simpl. split; [eauto|]. intros _.
    apply orb_true_iff. left. apply bool_decide_eq_true, elem_of_dom. eauto.
  - rewrite (toUpstream_on_miss _ _ Hc).
    rewrite bool_decide_eq_false_2 by (by apply not_elem_of_dom). simpl.
    destruct (derivable c) eqn:Hd.
    + destruct (toUpstream_miss_derivable c g Hd) as (?&?&?&?&_&_&->).
      split; eauto.
    + rewrite (toUpstream_miss_not_derivable _ _ Hd). simpl.
      split; [done|]. by intros [? ?].
Qed.

(** C1, as amended.  For a container whose identity is not cached:
    [toUpstream] fails with the missing-port error exactly when the
    upstream-port label is absent; it fails with the no-address error exactly
    when the label is present and the container has no network attachment at
    all; otherwise it returns, and caches under the identity, a new target
    whose dial string joins the address of the first attachment in range
    order, empty or not, with the port. *)
Theorem toUpstream_uncached (c : Container) (g : Globals) :
  addresses g !! ID c = None →
  ((toUpstream c g).1 = Err ErrNoPort ↔
     Labels c !! LabelUpstreamPort = None) ∧
  ((toUpstream c g).1 = Err ErrNoAddress ↔
     is_Some (Labels c !! LabelUpstreamPort) ∧ Networks c = []) ∧
  (∀ port name network rest,
     Labels c !! LabelUpstreamPort = Some port →
     Networks c = (name, network) :: rest →
     toUpstream c g =
       (Ok (length (heap g)),
        {| addresses := <[ID c := length (heap g)]> (addresses g);
           heap := heap g ++
             [mkUpstream (JoinHostPort (IPAddress network) port)] |})).
Proof.
  intros Hc. rewrite (toUpstream_on_miss _ _ Hc). unfold toUpstream_miss.
  destruct (Labels c !! LabelUpstreamPort) as [port|] eqn:Hp.
  - destruct (Networks c) as [|[name network] rest] eqn:Hn; simpl.
    + split; [split; [by intros [=]|done]|].
      split; [split; [eauto|done]|]. by intros.
    + split; [done|]. split; [split; [done|by intros [_ ?]]|].
      intros port' name' network' rest' [= <-] [= <- <- <-]. done.
  - simpl. split; [done|]. split; [|by intros].
    split; [by intros [=]|]. by intros [[? ?] _].
Qed.

(** Calls that run one after the other, each to its end, are idempotent:
    once a call of [toUpstream] has returned a target for an identity, every
    call made after it on a record with that identity, whatever its labels
    and networks and whatever was resolved in between, returns the same
    pointer and leaves cache and heap as they are. *)
Theorem toUpstream_idempotent (c : Container) (g : Globals) (p : ptr)
    (g1 : Globals) :
  toUpstream c g = (Ok p, g1) →
  ∀ (between : list Container) (c' : Container),
    ID c' = ID c →
    toUpstream c' (resolve_all between g1) = (Ok p, resolve_all between g1).
Proof.
  intros H between c' Hid. apply toUpstream_hit. rewrite Hid.
  apply resolve_all_keeps. by apply toUpstream_Ok in H as (? & _).
Qed.

Lemma toUpstream_Ok_dom c g p g' :
  toUpstream c g = (Ok p, g') →
  dom (addresses g') = {[ID c]} ∪ dom (addresses g).
Proof.
  intros H.
  destruct (toUpstream_Ok _ _ _ _ H) as (_ & _ & [[Hc ->]|(_ & _ & _ & ->)]).
  - symmetry. apply subseteq_union_1_L, singleton_subseteq_l.
    by apply elem_of_dom_2 in Hc.
  - apply dom_insert_L.
Qed.

(** ** GetUpstreams *)

Lemma filter_agree_on {A} (P Q : A → Prop) `{!∀ x, Decision (P x)}
    `{!∀ x, Decision (Q x)} (l : list A) :
  (∀ x, x ∈ l → P x ↔ Q x) → filter P l = filter Q l.
Proof.
  induction l as [|x l IH]; intros Hagree; [done|].
  rewrite !filter_cons.
  assert (P x ↔ Q x) as Hx by (apply Hagree; by left).
  rewrite IH by (intros y Hy; apply Hagree; by right).
  destruct (decide (P x)), (decide (Q x)); tauto.
Qed.

Section GetUpstreamsFacts.
Context {Request : Type}.
Variables MatchHost MatchPath : list string → Request → bool.

Local Abbreviation match_ := (match_ MatchHost MatchPath).
Local Abbreviation accepted := (accepted MatchHost MatchPath).
Local Abbreviation warnings := (warnings MatchHost MatchPath).
Local Abbreviation GetUpstreams_loop := (GetUpstreams_loop MatchHost MatchPath).
Local Abbreviation GetUpstreams := (GetUpstreams MatchHost MatchPath).

(** The containers a request gets a target for keep their snapshot order
    and all match the request. *)
Lemma accepted_sublist (r : Request) known cs :
  accepted r known cs `sublist_of` cs.
Proof.
  revert known. induction cs as [|c cs IH]; intros known; simpl; [done|].
  destruct (match_ r c); [destruct (resolves known c)|].
  - by apply sublist_skip.
  - by apply sublist_cons.
  - by apply sublist_cons.
Qed.

Lemma accepted_match (r : Request) known cs c :
  c ∈ accepted r known cs → match_ r c = true.
Proof.
  revert known. induction cs as [|c' cs IH]; intros known; simpl.
  - by intros ?%elem_of_nil.
  - destruct (match_ r c') eqn:Hm; [destruct (resolves known c')|]; eauto.
    intros Hin. apply elem_of_cons in Hin as [->|Hin]; eauto.
Qed.

Lemma accepted_warnings_length (r : Request) known cs :
  length (accepted r known cs) + length (warnings r known cs) =
  length (filter (λ c, match_ r c = true) cs).
Proof.
  revert known. induction cs as [|c cs IH]; intros known; simpl; [done|].
  rewrite filter_cons. destruct (match_ r c) eqn:Hm.
  - rewrite decide_True by done.
    destruct (resolves known c); simpl;
      [rewrite <- (IH ({[ID c]} ∪ known)) | rewrite <- (IH known)]; lia.
  - rewrite decide_False by (by intros [=]). apply IH.
Qed.

(** When no identity occurs twice in the snapshot, a container gets a target
    exactly when it matches and is either cached at the start or derivable:
    the earlier containers have no influence. *)
Lemma accepted_NoDup (r : Request) known cs :
  NoDup (ID <$> cs) →
  accepted r known cs =
  filter (λ c, match_ r c && resolves known c = true) cs.
Proof.
  revert known. induction cs as [|c cs IH]; intros known Hnd; [done|].
  rewrite fmap_cons in Hnd. apply NoDup_cons in Hnd as [Hc Hnd].
  assert (∀ known', filter (λ c', match_ r c' && resolves ({[ID c]} ∪ known') c' = true) cs
          = filter (λ c', match_ r c' && resolves known' c' = true) cs) as Hsame.
  { intros known'. apply filter_agree_on. intros c' Hin.
    assert (ID c' ≠ ID c) as Hne.
    { intros Heq. apply Hc. rewrite <- Heq. apply list_elem_of_fmap. eauto. }
    unfold resolves.
    destruct (decide (ID c' ∈ known')) as [Hk|Hk].
    - rewrite !bool_decide_eq_true_2; [done..|].
      apply elem_of_union. by right.
    - rewrite !bool_decide_eq_false_2; [done..|].
      intros [Heq%elem_of_singleton|Hin']%elem_of_union; done. }
  simpl. rewrite filter_cons.
  destruct (match_ r c) eqn:Hm; simpl.
  - destruct (resolves known c) eqn:Hr.
    + destruct (decide (true = true)); [|done].
      f_equal. rewrite IH by done. apply Hsame.
    + destruct (decide (false = true)); [done|]. by apply IH.
  - destruct (decide (false = true)); [done|]. by apply IH.
Qed.

(** What the loop of lines 185-197 computes from any starting point. *)
Lemma GetUpstreams_loop_spec (r : Request) cs upstreams u g upstreams' u' g' :
  GetUpstreams_loop r cs upstreams u g = (upstreams', u', g') →
  ∃ new,
    upstreams' = upstreams ++ new ∧
    Forall2 (λ c p, addresses g' !! ID c = Some p)
      (accepted r (dom (addresses g)) cs) new ∧
    logger u' = logger u ++ warnings r (dom (addresses g)) cs ∧
    mu u' = mu u ∧ containers u' = containers u ∧
    (∀ id p, addresses g !! id = Some p → addresses g' !! id = Some p) ∧
    heap g `prefix_of` heap g'.
Proof.
  revert upstreams u g. induction cs as [|c cs IH]; intros upstreams u g H.
  - simpl in H. injection H as <- <- <-. exists []. rewrite !app_nil_r.
    by repeat split.
  - simpl in H. simpl. destruct (match_ r c) eqn:Hm; [|by apply IH].
    destruct (toUpstream c g) as [[p|err] g1] eqn:Hres.
    + assert (resolves (dom (addresses g)) c = true) as ->.
      { apply toUpstream_resolves. rewrite Hres. eauto. }
      rewrite <- (toUpstream_Ok_dom _ _ _ _ Hres).
      apply IH in H as (new & -> & Hfa & Hlog & Hmu & Hcs & Hkeep & Hheap).
      exists (p :: new). rewrite <- app_assoc. split; [done|].
      split; [|split; [done|]]; [|repeat split; try done].
      * constructor; [|done]. apply Hkeep.
        by apply toUpstream_Ok in Hres as (? & _).
      * intros id q Hq. apply Hkeep.
        pose proof (toUpstream_keeps c g id q Hq) as Hk. by rewrite Hres in Hk.
      * etrans; [|exact Hheap].
        pose proof (toUpstream_heap_grows c g) as Hp. by rewrite Hres in Hp.
    + assert (resolves (dom (addresses g)) c = false) as ->.
      { apply not_true_is_false. intros [q Hq]%toUpstream_resolves.
        by rewrite Hres in Hq. }
      apply toUpstream_Err in Hres as (-> & -> & _ & _).
      apply IH in H as (new & -> & Hfa & Hlog & Hmu & Hcs & Hkeep & Hheap).
      exists new. repeat split; try done.
      rewrite Hlog. simpl. by rewrite <- app_assoc.
Qed.

(** The whole call: nil error, the targets of the accepted containers, the
    warnings of the skipped ones, lock and snapshot as before. *)
Lemma GetUpstreams_spec (r : Request) u g upstreams err u' g' :
  GetUpstreams r u g = (upstreams, err, u', g') →
  err = None ∧
  Forall2 (λ c p, addresses g' !! ID c = Some p)
    (accepted r (dom (addresses g)) (containers u)) upstreams ∧
  logger u' = logger u ++ warnings r (dom (addresses g)) (containers u) ∧
  containers u' = containers u ∧ mu u' = mu u ∧
  (∀ id p, addresses g !! id = Some p → addresses g' !! id = Some p) ∧
  heap g `prefix_of` heap g'.
Proof.
  unfold caddy_docker_upstreams.GetUpstreams.
  destruct (GetUpstreams_loop r (containers (RLock u)) [] (RLock u) g)
    as [[upstreams2 u2] g2] eqn:H.
  intros [= <- <- <- <-].
  apply GetUpstreams_loop_spec in H
    as (new & -> & Hfa & Hlog & Hmu & Hcs & Hkeep & Hheap).
  simpl in *. repeat split; try done. by rewrite Hmu.
Qed.

(** C2.  [GetUpstreams] returns a nil error for every request and state.
    The returned list has one target for each matching container whose
    resolution succeeded, the one cached under its identity; each matching
    container whose resolution failed is skipped with one warning in the
    log; the snapshot is left as it was.  Nothing excludes the empty list. *)
Theorem GetUpstreams_never_fails (r : Request) (u : Upstreams) (g : Globals) :
  let '((upstreams, err), u', g') := GetUpstreams r u g in
  err = None ∧
  Forall2 (λ c p, addresses g' !! ID c = Some p)
    (accepted r (dom (addresses g)) (containers u)) upstreams ∧
  logger u' = logger u ++ warnings r (dom (addresses g)) (containers u) ∧
  length upstreams + length (warnings r (dom (addresses g)) (containers u)) =
    length (filter (λ c, match_ r c = true) (containers u)) ∧
  containers u' = containers u ∧ mu u' = mu u.
Proof.
  destruct (GetUpstreams r u g) as [[[upstreams err] u'] g'] eqn:H.
  apply GetUpstreams_spec in H as (-> & Hfa & Hlog & Hcs & Hmu & _).
  repeat split; try done.
  rewrite <- (Forall2_length _ _ _ Hfa). apply accepted_warnings_length.
Qed.

(** C10.  The returned targets follow the snapshot's order: they pair up,
    one to one and in order, with a subsequence of the snapshot, namely the
    matching containers whose resolution succeeded, each target being the
    one cached under the container's identity. *)
Theorem GetUpstreams_preserves_order (r : Request) (u : Upstreams)
    (g : Globals) :
  let kept := accepted r (dom (addresses g)) (containers u) in
  kept `sublist_of` containers u ∧
  Forall (λ c, match_ r c = true) kept ∧
  Forall2 (λ c p, addresses (GetUpstreams r u g).2 !! ID c = Some p)
    kept (GetUpstreams r u g).1.1.1.
Proof.
  simpl. split; [apply accepted_sublist|].
  split; [apply Forall_forall; intros c; apply accepted_match|].
  destruct (GetUpstreams r u g) as [[[upstreams err] u'] g'] eqn:H.
  by apply GetUpstreams_spec in H as (_ & H & _).
Qed.

End GetUpstreamsFacts.

(** ** keepUpdated *)

Lemma keepUpdated_run_app evs1 evs2 pc u :
  keepUpdated_run (evs1 ++ evs2) pc u =
  match keepUpdated_run evs1 pc u with
  | Some (pc', u') => keepUpdated_run evs2 pc' u'
  | None => None
  end.
Proof.
  revert pc u. induction evs1 as [|ev evs1 IH]; intros pc u; simpl; [done|].
  destruct (keepUpdated_step ev pc u) as [[pc' u']|]; [apply IH|done].
Qed.

(** The only steps into [W_Return]. *)
Lemma keepUpdated_step_Return ev pc u u' :
  keepUpdated_step ev pc u = Some (W_Return, u') →
  (pc = W_Select ∧ ∃ err, ev = Ev_Error err ∧ errors_Is_Canceled err = true) ∨
  (∃ d, pc = W_Backoff d ∧ ev = Ev_CtxDone).
Proof.
  destruct pc as [| |held|d|], ev as [|[listing|err]|err| | |]; simpl;
    try done.
  - destruct (errors_Is_Canceled err) eqn:Hc; [|done].
    intros _. left. eauto.
  - by destruct (decide (mu u = 0)).
  - intros _. right. eauto.
Qed.

(** The snapshot changes in one step only: the assignment under the write
    lock, to the list that the last listing call returned. *)
Lemma keepUpdated_step_containers ev pc u pc' u' :
  keepUpdated_step ev pc u = Some (pc', u') →
  containers u' = containers u ∨
  (∃ listing, pc = W_Lock listing ∧ ev = Ev_Locked ∧ mu u = 0 ∧
              containers u' = listing).
Proof.
  destruct pc as [| |held|d|], ev as [|[listing|err]|err| | |]; simpl;
    try done;
    try (intros [= <- <-]; by left).
  - destruct (errors_Is_Canceled err); intros [= <- <-]; by left.
  - destruct (decide (mu u = 0)) as [Hmu|]; [|done].
    intros [= <- <-]. right. eauto.
Qed.

Lemma keepUpdated_step_mu ev pc u pc' u' :
  keepUpdated_step ev pc u = Some (pc', u') → mu u' = mu u.
Proof.
  destruct pc as [| |held|d|], ev as [|[listing|err]|err| | |]; simpl;
    try done;
    try (by intros [= <- <-]).
  - destruct (errors_Is_Canceled err); by intros [= <- <-].
  - destruct (decide (mu u = 0)); [|done]. by intros [= <- <-].
Qed.

Lemma retry_round_run err u :
  errors_Is_Canceled err = false →
  keepUpdated_run (retry_round err) W_Select u =
  Some (W_Select, log_write (WarnNoEvents err) u).
Proof. intros H. simpl. by rewrite H. Qed.

Lemma retry_rounds_run errs u :
  Forall (λ err, errors_Is_Canceled err = false) errs →
  ∃ u', keepUpdated_run (errs ≫= retry_round) W_Select u = Some (W_Select, u') ∧
        containers u' = containers u ∧ mu u' = mu u ∧
        logger u' = logger u ++ (WarnNoEvents <$> errs).
Proof.
  intros H. revert u. induction H as [|err errs Herr _ IH]; intros u.
  - exists u. simpl. by rewrite app_nil_r.
  - rewrite bind_cons, keepUpdated_run_app, (retry_round_run _ _ Herr).
    destruct (IH (log_write (WarnNoEvents err) u)) as (u' & -> & ? & ? & Hl).
    exists u'. repeat split; try done.
    rewrite Hl. simpl. by rewrite <- app_assoc.
Qed.

(** C7.  The watcher returns only on cancellation: from the select loop on
    a subscription error that is context.Canceled, or from the backoff wait
    on the context being done; once returned it takes no step.  On any other
    subscription error it logs a warning and waits with a timer of 500 ms;
    when the timer fires it subscribes again and is back in the select loop.
    Any number of such failures in a row leaves it in the select loop. *)
Theorem keepUpdated_stops_only_on_cancel :
  (∀ ev pc u u',
     keepUpdated_step ev pc u = Some (W_Return, u') →
     (pc = W_Select ∧
      ∃ err, ev = Ev_Error err ∧ errors_Is_Canceled err = true) ∨
     (∃ d, pc = W_Backoff d ∧ ev = Ev_CtxDone)) ∧
  (∀ ev u, keepUpdated_step ev W_Return u = None) ∧
  (∀ err u,
     keepUpdated_step (Ev_Error err) W_Select u =
     if errors_Is_Canceled err then Some (W_Return, u)
     else Some (W_Backoff (500 * Millisecond), log_write (WarnNoEvents err) u)) ∧
  (∀ d u,
     keepUpdated_step Ev_Timer (W_Backoff d) u = Some (W_Events, u) ∧
     keepUpdated_step Ev_CtxDone (W_Backoff d) u = Some (W_Return, u)) ∧
  (∀ u, keepUpdated_step Ev_Subscribed W_Events u = Some (W_Select, u)) ∧
  (∀ errs u,
     Forall (λ err, errors_Is_Canceled err = false) errs →
     ∃ u', keepUpdated_run (errs ≫= retry_round) W_Select u =
             Some (W_Select, u') ∧
           containers u' = containers u ∧
           logger u' = logger u ++ (WarnNoEvents <$> errs)).
Proof.
  split; [apply keepUpdated_step_Return|].
  split; [by intros []|].
  split; [done|]. split; [done|]. split; [done|].
  intros errs u H.
  destruct (retry_rounds_run errs u H) as (u' & ? & ? & _ & ?). eauto.
Qed.

(** ** Requests against the watcher *)

Section SystemFacts.
Context {Request : Type}.
Variables MatchHost MatchPath : list string → Request → bool.

Local Abbreviation match_ := (match_ MatchHost MatchPath).
Local Abbreviation GetUpstreams_loop := (GetUpstreams_loop MatchHost MatchPath).
Local Abbreviation GetUpstreams := (GetUpstreams MatchHost MatchPath).
Local Abbreviation GetUpstreams_step := (GetUpstreams_step MatchHost MatchPath).
Local Abbreviation GetUpstreams_run := (GetUpstreams_run MatchHost MatchPath).
Local Abbreviation system_step := (system_step MatchHost MatchPath).
Local Abbreviation system_run := (system_run MatchHost MatchPath).

(** Targets and cache of a call depend on the struct through the snapshot
    alone: neither the log nor the lock count is read. *)
Lemma GetUpstreams_loop_reads_snapshot (r : Request) cs upstreams u1 u2 g :
  (GetUpstreams_loop r cs upstreams u1 g).1.1 =
    (GetUpstreams_loop r cs upstreams u2 g).1.1 ∧
  (GetUpstreams_loop r cs upstreams u1 g).2 =
    (GetUpstreams_loop r cs upstreams u2 g).2.
Proof.
  revert upstreams u1 u2 g.
  induction cs as [|c cs IH]; intros upstreams u1 u2 g; simpl; [done|].
  destruct (match_ r c); [|apply IH].
  destruct (toUpstream c g) as [[p|err] g']; apply IH.
Qed.

Lemma GetUpstreams_reads_snapshot (r : Request) u1 u2 g :
  containers u1 = containers u2 →
  (GetUpstreams r u1 g).1.1 = (GetUpstreams r u2 g).1.1 ∧
  (GetUpstreams r u1 g).2 = (GetUpstreams r u2 g).2.
Proof.
  intros Hcs. unfold caddy_docker_upstreams.GetUpstreams. simpl. rewrite Hcs.
  pose proof (GetUpstreams_loop_reads_snapshot r (containers u2) []
                (RLock u1) (RLock u2) g) as [H1 H2].
  destruct (GetUpstreams_loop r (containers u2) [] (RLock u1) g)
    as [[ups1 u1'] g1].
  destruct (GetUpstreams_loop r (containers u2) [] (RLock u2) g)
    as [[ups2 u2'] g2].
  simpl in *. by subst.
Qed.

(** Provision starts the module only when all three calls succeed. *)
Lemma Provision_Ok cli ping listing g (s : @System Request) :
  Provision cli ping listing g = Ok s ↔
  ∃ api_version first,
    cli = Ok () ∧ ping = Ok api_version ∧ listing = Ok first ∧
    s = provisioned api_version first g.
Proof.
  unfold Provision. split.
  - destruct cli as [[]|], ping as [v|], listing as [l|]; try done.
    intros [= <-]. by exists v, l.
  - by intros (v & l & -> & -> & -> & ->).
Qed.

(** C6.  When a message arrives and the listing call that follows fails,
    the watcher writes an error to the log and stays in the select loop of
    the same subscription; the snapshot is the one from before, and every
    [GetUpstreams] call made afterwards returns the targets, and leaves the
    cache, that it would have without the event. *)
Theorem keepUpdated_relist_failure (err : error) (u : Upstreams) :
  ∃ u',
    keepUpdated_step (Ev_Message (Err err)) W_Select u = Some (W_Select, u') ∧
    containers u' = containers u ∧
    logger u' = logger u ++ [ErrorNoList err] ∧
    ∀ (r : Request) (g : Globals),
      (GetUpstreams r u' g).1.1 = (GetUpstreams r u g).1.1 ∧
      (GetUpstreams r u' g).2 = (GetUpstreams r u g).2.
Proof.
  exists (log_write (ErrorNoList err) u). repeat split; try done;
    by apply GetUpstreams_reads_snapshot.
Qed.

(** *** An invocation run alone is the function [GetUpstreams] *)

Lemma GetUpstreams_run_Return fuel (r : Request) slice upstreams u g :
  GetUpstreams_run fuel (G_Return r slice upstreams, u, g) =
  (G_Return r slice upstreams, u, g).
Proof. by destruct fuel. Qed.

Lemma GetUpstreams_run_S fuel (pc : RequestPc) u g :
  GetUpstreams_run (S fuel) (pc, u, g) =
  match GetUpstreams_step pc u g with
  | Some st' => GetUpstreams_run fuel st'
  | None => (pc, u, g)
  end.
Proof. reflexivity. Qed.

Lemma GetUpstreams_run_loop (r : Request) slice n :
  ∀ i upstreams u g fuel,
    length slice - i = n → 2 * n + 1 ≤ fuel →
    GetUpstreams_run fuel (G_Loop r slice i upstreams, u, g) =
    (G_Return r slice (GetUpstreams_loop r (drop i slice) upstreams u g).1.1,
     RUnlock (GetUpstreams_loop r (drop i slice) upstreams u g).1.2,
     (GetUpstreams_loop r (drop i slice) upstreams u g).2).
Proof.
  induction n as [|n IH]; intros i upstreams u g fuel Hn Hfuel.
  - destruct fuel as [|fuel]; [lia|].
    rewrite drop_ge by lia. rewrite GetUpstreams_run_S. simpl.
    rewrite lookup_ge_None_2 by lia. apply GetUpstreams_run_Return.
  - destruct fuel as [|fuel]; [lia|].
    destruct (lookup_lt_is_Some_2 slice i) as [c Hc]; [lia|].
    rewrite (drop_S _ _ _ Hc), GetUpstreams_run_S.
    cbn [caddy_docker_upstreams.GetUpstreams_step caddy_docker_upstreams.GetUpstreams_loop].
    rewrite Hc. unfold toUpstream.
    destruct (match_ r c); [|apply IH; lia].
    destruct (toUpstream_lookup c g) as [cached|]; [apply IH; lia|].
    destruct fuel as [|fuel]; [lia|].
    rewrite GetUpstreams_run_S. cbn [caddy_docker_upstreams.GetUpstreams_step].
    destruct (toUpstream_miss c g) as [[p|err] g']; apply IH; lia.
Qed.

(** With enough fuel, no other goroutine running, an invocation ends in
    [G_Return] with what [GetUpstreams] returns. *)
Lemma GetUpstreams_run_alone (r : Request) u g fuel :
  2 * length (containers u) + 3 ≤ fuel →
  GetUpstreams_run fuel (G_RLock r, u, g) =
  (G_Return r (containers u) (GetUpstreams r u g).1.1.1,
   (GetUpstreams r u g).1.2, (GetUpstreams r u g).2).
Proof.
  intros Hfuel. destruct fuel as [|[|fuel]]; [lia|lia|].
  rewrite GetUpstreams_run_S. cbn [caddy_docker_upstreams.GetUpstreams_step].
  rewrite GetUpstreams_run_S. cbn [caddy_docker_upstreams.GetUpstreams_step].
  rewrite (GetUpstreams_run_loop r _ (length (containers u)))
    by (simpl; lia).
  rewrite drop_0. unfold caddy_docker_upstreams.GetUpstreams. simpl.
  by destruct (GetUpstreams_loop r (containers u) [] (RLock u) g) as [[??]?].
Qed.

End SystemFacts.

(** ** The snapshot under concurrent requests *)

Section SnapshotFacts.
Context {Request : Type}.
Variables MatchHost MatchPath : list string → Request → bool.

Local Abbreviation GetUpstreams_step := (GetUpstreams_step MatchHost MatchPath).
Local Abbreviation system_step := (system_step MatchHost MatchPath).
Local Abbreviation system_run := (system_run MatchHost MatchPath).
Local Abbreviation RequestPc := (@RequestPc Request).
Local Abbreviation Action := (@Action Request).
Local Abbreviation System := (@System Request).

Lemma system_run_snoc (tr : list Action) a (s : System) :
  system_run (tr ++ [a]) s =
  match system_run tr s with
  | Some s' => system_step a s'
  | None => None
  end.
Proof.
  revert s. induction tr as [|b tr IH]; intros s; simpl.
  - by destruct (system_step a s).
  - destruct (system_step b s); [apply IH|done].
Qed.

Lemma listings_snoc first (tr : list Action) a l :
  l ∈ listings first tr → l ∈ listings first (tr ++ [a]).
Proof.
  unfold listings. rewrite omap_app, app_comm_cons, elem_of_app. by left.
Qed.

Lemma listings_listed first (tr : list Action) a l :
  listed a = Some l → l ∈ listings first (tr ++ [a]).
Proof.
  intros H. unfold listings. rewrite omap_app, app_comm_cons, elem_of_app.
  right. simpl. rewrite H. by left.
Qed.

Lemma readers_app (reqs1 reqs2 : list RequestPc) :
  readers (reqs1 ++ reqs2) = readers reqs1 + readers reqs2.
Proof. apply sum_list_with_app. Qed.

Lemma readers_insert (reqs : list RequestPc) i pc pc' :
  reqs !! i = Some pc →
  readers (<[i := pc']> reqs) + holding pc = readers reqs + holding pc'.
Proof.
  revert i. induction reqs as [|q reqs IH]; intros [|i]; simpl; try done.
  - intros [= ->]. unfold readers. simpl. lia.
  - intros H. specialize (IH i H). unfold readers in *. simpl. lia.
Qed.

Lemma readers_zero (reqs : list RequestPc) i pc :
  readers reqs = 0 → reqs !! i = Some pc → holds_rlock pc = false.
Proof.
  revert i. induction reqs as [|q reqs IH]; intros [|i]; simpl; try done.
  - intros H [= ->]. unfold readers, holding in H. simpl in H.
    destruct (holds_rlock pc); [lia|done].
  - intros H. apply IH. unfold readers in *. simpl in H. lia.
Qed.

Lemma readers_lookup (reqs : list RequestPc) i pc :
  reqs !! i = Some pc → holding pc ≤ readers reqs.
Proof.
  revert i. induction reqs as [|q reqs IH]; intros [|i]; simpl; try done.
  - intros [= ->]. unfold readers. simpl. lia.
  - intros H. specialize (IH i H). unfold readers in *. simpl. lia.
Qed.

(** What one step of an invocation does to the lock and to its range. *)
Lemma GetUpstreams_step_lock (pc : RequestPc) u g pc' u' g' :
  GetUpstreams_step pc u g = Some (pc', u', g') →
  containers u' = containers u ∧
  mu u' = mu u + holding pc' - holding pc ∧
  (∀ slice, iterated pc' = Some slice →
     holds_rlock pc = true ∧
     (iterated pc = Some slice ∨ slice = containers u)).
Proof.
  assert (∀ n, Init.Nat.pred n = n + 0 - 1) as Hpred by lia.
  destruct pc as [r|r|r slice i ups|r slice i ups c|r slice ups]; simpl;
    [| |destruct (slice !! i) as [c|];
        [destruct (match_ MatchHost MatchPath r c);
           [destruct (toUpstream_lookup c g)|]|]
     |destruct (toUpstream_miss c g) as [[p|err] g1]|done];
    intros [= <- <- <-]; unfold holding; simpl;
    (split; [done|]); (split; [auto with lia|]);
    intros ? [= <-]; eauto.
Qed.

Lemma keepUpdated_step_Lock ev pc u listing u' :
  keepUpdated_step ev pc u = Some (W_Lock listing, u') →
  ev = Ev_Message (Ok listing).
Proof.
  destruct pc as [| |held|d|], ev as [|[l|err]|err| | |]; simpl; try done.
  - by intros [= ->].
  - by destruct (errors_Is_Canceled err).
  - by destruct (decide (mu u = 0)).
Qed.

(** Every step of the system keeps [snapshot_inv]. *)
Lemma snapshot_inv_step first (tr : list Action) a (s s' : System) :
  snapshot_inv first tr s → system_step a s = Some s' →
  snapshot_inv first (tr ++ [a]) s'.
Proof.
  intros (Hmu & Hcur & Hw & Hreq) Hstep.
  destruct a as [ev|r|i]; simpl in Hstep.
  - destruct (keepUpdated_step ev (sys_watcher s) (sys_u s))
      as [[pc' u']|] eqn:Hk; [|done].
    injection Hstep as <-. unfold snapshot_inv. simpl.
    pose proof (keepUpdated_step_mu _ _ _ _ _ Hk) as Hmu'.
    pose proof (keepUpdated_step_containers _ _ _ _ _ Hk) as Hcs.
    split; [by rewrite Hmu'|]. split; [|split].
    + destruct Hcs as [->|(l & Hpc & _ & _ & ->)].
      * by apply listings_snoc.
      * apply listings_snoc. by apply Hw.
    + intros l ->. apply keepUpdated_step_Lock in Hk as ->.
      by apply listings_listed.
    + intros i pc slice Hi Hit. destruct (Hreq i pc slice Hi Hit) as [Hin Heq].
      split; [by apply listings_snoc|]. intros Hh.
      destruct Hcs as [->|(l & _ & _ & Hzero & _)]; [by apply Heq|].
      rewrite Hmu in Hzero.
      pose proof (readers_zero _ _ _ Hzero Hi). congruence.
  - injection Hstep as <-. unfold snapshot_inv. simpl.
    split; [rewrite readers_app; unfold readers at 2; simpl; lia|].
    split; [by apply listings_snoc|].
    split; [intros l Hl; apply listings_snoc; by apply Hw|].
    intros i pc slice Hi Hit.
    apply lookup_app_Some in Hi as [Hi|[_ Hi]].
    + destruct (Hreq i pc slice Hi Hit) as [Hin Heq].
      split; [by apply listings_snoc|done].
    + apply list_lookup_singleton_Some in Hi as [_ <-]. done.
  - destruct (sys_requests s !! i) as [pc|] eqn:Hi; [|done].
    destruct (GetUpstreams_step pc (sys_u s) (sys_g s))
      as [[[pc' u'] g']|] eqn:Hg; [|done].
    injection Hstep as <-. unfold snapshot_inv. simpl.
    destruct (GetUpstreams_step_lock _ _ _ _ _ _ Hg) as (Hcs & Hmu' & Hit').
    pose proof (readers_insert _ _ _ pc' Hi) as Hins.
    pose proof (readers_lookup _ _ _ Hi) as Hle.
    split; [lia|]. rewrite Hcs.
    split; [by apply listings_snoc|].
    split; [intros l Hl; apply listings_snoc; by apply Hw|].
    intros j pcj slice Hj Hit.
    destruct (decide (i = j)) as [<-|Hne].
    + rewrite list_lookup_insert_eq in Hj by (by eapply lookup_lt_Some).
      injection Hj as <-.
      destruct (Hit' slice Hit) as [Hh [Hold| ->]].
      * destruct (Hreq i pc slice Hi Hold) as [Hin Heq].
        split; [by apply listings_snoc|]. intros _. by apply Heq.
      * split; [by apply listings_snoc|done].
    + rewrite list_lookup_insert_ne in Hj by done.
      destruct (Hreq j pcj slice Hj Hit) as [Hin Heq].
      split; [by apply listings_snoc|done].
Qed.

Lemma snapshot_inv_provisioned api first g :
  snapshot_inv first [] (provisioned (Request:=Request) api first g).
Proof.
  unfold snapshot_inv, listings. simpl.
  split; [done|]. split; [by left|]. split; [done|].
  intros i pc slice Hi. by rewrite lookup_nil in Hi.
Qed.

Lemma snapshot_inv_run first (tr : list Action) (s0 s : System) :
  snapshot_inv first [] s0 → system_run tr s0 = Some s →
  snapshot_inv first tr s.
Proof.
  intros H0. revert s. induction tr as [|a tr IH] using rev_ind; intros s.
  - simpl. by intros [= <-].
  - rewrite system_run_snoc.
    destruct (system_run tr s0) as [s1|]; [|done].
    intros Hstep. eapply snapshot_inv_step; eauto.
Qed.

(** C8.  Along every run of the provisioned module, with requests and the
    watcher interleaved in any way, the list an invocation of
    [GetUpstreams] ranges over is the result of one listing call, that of
    Provision or one of the watcher's, and for as long as the invocation is
    in its loop that list is the current snapshot: no replacement happens
    under it. *)
Theorem snapshot_replacement_atomic (api : string) (first : list Container)
    (g : Globals) (tr : list Action) (s : System) :
  system_run tr (provisioned api first g) = Some s →
  ∀ i pc slice,
    sys_requests s !! i = Some pc → iterated pc = Some slice →
    slice ∈ listings first tr ∧
    (holds_rlock pc = true → slice = containers (sys_u s)).
Proof.
  intros Hrun. eapply snapshot_inv_run; [|exact Hrun].
  apply snapshot_inv_provisioned.
Qed.

End SnapshotFacts.

(** ** The address cache under concurrent requests *)

Section CacheFacts.
Context {Request : Type}.
Variables MatchHost MatchPath : list string → Request → bool.

Local Abbreviation match_ := (match_ MatchHost MatchPath).
Local Abbreviation GetUpstreams_step := (GetUpstreams_step MatchHost MatchPath).
Local Abbreviation system_step := (system_step MatchHost MatchPath).
Local Abbreviation system_run := (system_run MatchHost MatchPath).

(** A cache hit inside the loop, whatever else is going on: the invocation
    takes the cached pointer and writes nothing. *)
Lemma GetUpstreams_step_hit (r : Request) slice i upstreams c p u g :
  slice !! i = Some c → match_ r c = true →
  addresses g !! ID c = Some p →
  GetUpstreams_step (G_Loop r slice i upstreams) u g =
  Some (G_Loop r slice (S i) (upstreams ++ [p]), u, g).
Proof.
  intros Hi Hm Hc. simpl. rewrite Hi, Hm. unfold toUpstream_lookup.
  by rewrite Hc.
Qed.

Lemma toUpstream_miss_keys c g :
  dom (addresses g) ⊆ dom (addresses (toUpstream_miss c g).2) ∧
  heap g `prefix_of` heap (toUpstream_miss c g).2.
Proof.
  unfold toUpstream_miss.
  destruct (Labels c !! LabelUpstreamPort); [|done].
  destruct (Networks c) as [|[??] ?]; simpl; [done|].
  split; [|by apply prefix_app_r].
  rewrite dom_insert_L. apply union_subseteq_r.
Qed.

(** No step of any goroutine removes a key from the cache or an object from
    the heap, also when invocations overlap. *)
Lemma system_step_keeps_keys a (s s' : @System Request) :
  system_step a s = Some s' →
  dom (addresses (sys_g s)) ⊆ dom (addresses (sys_g s')) ∧
  heap (sys_g s) `prefix_of` heap (sys_g s').
Proof.
  destruct a as [ev|r|i]; simpl.
  - destruct (keepUpdated_step ev (sys_watcher s) (sys_u s)) as [[??]|];
      [|done]. by intros [= <-].
  - by intros [= <-].
  - destruct (sys_requests s !! i) as [pc|]; [|done].
    destruct pc as [r|r|r slice j ups|r slice j ups c|r slice ups]; simpl;
      try (by intros [= <-]).
    + destruct (slice !! j) as [c|]; [|by intros [= <-]].
      destruct (match_ r c); [|by intros [= <-]].
      by destruct (toUpstream_lookup c (sys_g s)); intros [= <-].
    + pose proof (toUpstream_miss_keys c (sys_g s)) as Hk.
      destruct (toUpstream_miss c (sys_g s)) as [[p|err] g'];
        by intros [= <-].
Qed.

Lemma system_run_keeps_keys tr (s s' : @System Request) :
  system_run tr s = Some s' →
  dom (addresses (sys_g s)) ⊆ dom (addresses (sys_g s')) ∧
  heap (sys_g s) `prefix_of` heap (sys_g s').
Proof.
  revert s. induction tr as [|a tr IH]; intros s; simpl.
  - by intros [= <-].
  - destruct (system_step a s) as [s1|] eqn:Hstep; [|done].
    intros Hrun. destruct (system_step_keeps_keys _ _ _ Hstep) as [Hd Hh].
    destruct (IH _ Hrun) as [Hd' Hh']. split; by etrans.
Qed.

End CacheFacts.

(** ** The scenarios, evaluated *)

Section Evaluated.
Import Scenario.

(** End-to-end scenario 1: container A alone yields its address and port
    for any request. *)
Example scenario_1 :
  let out := GetUpstreams hostIs pathIs otherReq
               (mkUpstreams [] 0 [cA]) fresh in
  out.1.1 = ([0], None) ∧ dials out.2 [0] = [Some "10.0.0.5:8080"].
Proof. vm_compute. done. Qed.

(** End-to-end scenario 2: container B is offered to its host only. *)
Example scenario_2 :
  let hit := GetUpstreams hostIs pathIs anyReq
               (mkUpstreams [] 0 [cB]) fresh in
  let miss := GetUpstreams hostIs pathIs otherReq
                (mkUpstreams [] 0 [cB]) fresh in
  hit.1.1 = ([0], None) ∧ dials hit.2 [0] = [Some "10.0.0.6:9090"] ∧
  miss.1.1 = ([], None) ∧ miss.2 = fresh.
Proof. vm_compute. done. Qed.

(** End-to-end scenario 5: after the snapshot no longer lists container A,
    its entry is still cached but no request gets it. *)
Example scenario_5 :
  system_run hostIs pathIs replace_run started = Some replaced ∧
  addresses (sys_g replaced) !! "a" = Some 0 ∧
  returned <$> sys_requests replaced !! 1 = Some (Some [1]).
Proof. vm_compute. done. Qed.

(** Containers that fail to resolve are skipped with a warning each, and
    the call still returns a nil error. *)
Example skipped_with_warnings :
  let out := GetUpstreams hostIs pathIs anyReq
               (mkUpstreams [] 0 [cNoPort; cA; cNoNet; cOff]) fresh in
  out.1.1 = ([0], None) ∧
  logger out.1.2 = [WarnNoUpstream ErrNoPort; WarnNoUpstream ErrNoAddress].
Proof. vm_compute. done. Qed.

(** The write lock is not granted while a request is inside its loop. *)
Example install_waits_for_readers :
  system_run hostIs pathIs early_install started = None.
Proof. vm_compute. done. Qed.

(** An IPv6 address is bracketed in the dial string. *)
Example JoinHostPort_v6 : JoinHostPort "fd00::5" "8080" = "[fd00::5]:8080".
Proof. reflexivity. Qed.

(** C1, as stated, fails on a container whose only network
    attachment has an empty address: no attachment has a non-empty address,
    yet [toUpstream] returns, and caches, a target that dials ":8080", where
    the resolver of section 4.2 returns the no-address error. *)
Lemma toUpstream_takes_empty_address :
  addresses fresh !! ID cNoIP = None ∧
  first_usable (Networks cNoIP) = None ∧
  toUpstream cNoIP fresh =
    (Ok 0, {| addresses := <["n" := 0]> ∅; heap := [mkUpstream ":8080"] |}) ∧
  toUpstream_as_specified cNoIP fresh = (Err ErrNoAddress, fresh).
Proof. vm_compute. done. Qed.

(** With a second attachment that has an address, the code still takes the
    first attachment. *)
Example toUpstream_takes_first_attachment :
  first_usable (Networks cSecondIP) = Some "10.0.0.7" ∧
  heap (toUpstream cSecondIP fresh).2 = [mkUpstream ":8080"] ∧
  heap (toUpstream_as_specified cSecondIP fresh).2 =
    [mkUpstream "10.0.0.7:8080"].
Proof. vm_compute. done. Qed.

(** C9, where the code departs from it.  Two requests find container A
    uncached before either has inserted.  The first insertion caches target
    0 under "a"; the second allocates target 1 and stores it under the same
    key, replacing target 0: two targets were created for one identity. *)
Theorem toUpstream_race_replaces_entry :
  cache_after race_lookups = Some ([], []) ∧
  cache_after race_first_insert =
    Some ([("a", 0)], [mkUpstream "10.0.0.5:8080"]) ∧
  cache_after race_second_insert =
    Some ([("a", 1)],
          [mkUpstream "10.0.0.5:8080"; mkUpstream "10.0.0.5:8080"]).
Proof. vm_compute. done. Qed.

(** C3, where the code departs from it.  In the run above the first
    invocation's call of [toUpstream] on container A succeeds: it caches
    target 0 under "a" and the invocation returns that target.  The second
    invocation, which had looked "a" up before, then stores target 1 under
    the same key.  A request made after both have returned resolves the same
    container, by a cache hit, to target 1: a call made after a successful
    one does not return the target that one cached. *)
Theorem toUpstream_race_later_call_differs :
  cache_after race_first_insert =
    Some ([("a", 0)], [mkUpstream "10.0.0.5:8080"]) ∧
  returned_after (race_second_insert ++ [A_Run 0; A_Run 1]) =
    Some [Some [0]; Some [1]] ∧
  returned_after race_then_third = Some [Some [0]; Some [1]; Some [1]].
Proof. vm_compute. done. Qed.

End Evaluated.

(** ** The theorems at concrete inputs *)

Section Witnesses.
Import Scenario.

(** The container with an empty first address is uncached in the fresh
    cache and gets the target ":8080". *)
Lemma toUpstream_uncached_witness :
  addresses fresh !! ID cNoIP = None ∧
  toUpstream cNoIP fresh =
    (Ok (length (heap fresh)),
     {| addresses := <[ID cNoIP := length (heap fresh)]> (addresses fresh);
        heap := heap fresh ++
          [mkUpstream (JoinHostPort (IPAddress (mkEndpoint "")) "8080")] |}).
Proof.
  assert (addresses fresh !! ID cNoIP = None) as Hmiss by reflexivity.
  split; [exact Hmiss|].
  destruct (toUpstream_uncached cNoIP fresh Hmiss) as (_ & _ & Hfirst).
  apply (Hfirst "8080" "bridge" (mkEndpoint "") []);
    vm_compute; reflexivity.
Defined.

(** Container A resolved once; later a record with the same identity but
    neither port nor network gets the same target. *)
Lemma toUpstream_idempotent_witness :
  toUpstream cA fresh = (Ok 0, gA) ∧
  toUpstream cA' (resolve_all [cB] gA) = (Ok 0, resolve_all [cB] gA).
Proof.
  assert (toUpstream cA fresh = (Ok 0, gA)) as Hfirst
    by (vm_compute; reflexivity).
  split; [exact Hfirst|].
  apply (toUpstream_idempotent cA fresh 0 gA Hfirst [cB] cA').
  reflexivity.
Defined.

Lemma match_not_enabled_witness :
  (Labels cOff !! LabelEnable = None ∨
   ∃ value, Labels cOff !! LabelEnable = Some value ∧ value ≠ "true") ∧
  match_ hostIs pathIs anyReq cOff = false.
Proof.
  assert (Labels cOff !! LabelEnable = None ∨
          ∃ value, Labels cOff !! LabelEnable = Some value ∧ value ≠ "true")
    as Hoff.
  { right. exists "yes". split; [vm_compute; reflexivity|discriminate]. }
  split; [exact Hoff|].
  exact (match_not_enabled hostIs pathIs anyReq cOff Hoff).
Defined.

Lemma match_enabled_without_matchers_witness :
  Labels cA !! LabelEnable = Some "true" ∧
  Labels cA !! LabelMatchHost = None ∧
  Labels cA !! LabelMatchPath = None ∧
  match_ hostIs pathIs otherReq cA = true.
Proof.
  assert (Labels cA !! LabelEnable = Some "true") as He
    by (vm_compute; reflexivity).
  assert (Labels cA !! LabelMatchHost = None) as Hh
    by (vm_compute; reflexivity).
  assert (Labels cA !! LabelMatchPath = None) as Hp
    by (vm_compute; reflexivity).
  split; [exact He|]. split; [exact Hh|]. split; [exact Hp|].
  exact (match_enabled_without_matchers hostIs pathIs otherReq cA He Hh Hp).
Defined.

(** Three failed subscriptions in a row: the watcher is in its select loop
    again, three warnings later. *)
Lemma keepUpdated_stops_only_on_cancel_witness :
  Forall (λ err, errors_Is_Canceled err = false) failures ∧
  ∃ u', keepUpdated_run (failures ≫= retry_round) W_Select
          (mkUpstreams [] 0 [cA]) = Some (W_Select, u') ∧
        containers u' = [cA] ∧
        logger u' = WarnNoEvents <$> failures.
Proof.
  assert (Forall (λ err, errors_Is_Canceled err = false) failures) as Hf
    by (repeat constructor).
  split; [exact Hf|].
  destruct keepUpdated_stops_only_on_cancel as (_ & _ & _ & _ & _ & Hretry).
  exact (Hretry failures (mkUpstreams [] 0 [cA]) Hf).
Defined.

(** The first request ranged over the listing of Provision, the second
    over the listing the watcher installed in between. *)
Lemma snapshot_replacement_atomic_witness :
  system_run hostIs pathIs replace_run (provisioned "1.43" [cA] fresh) =
    Some replaced ∧
  [cA] ∈ listings [cA] replace_run ∧
  [cB] ∈ listings [cA] replace_run.
Proof.
  assert (system_run hostIs pathIs replace_run
            (provisioned "1.43" [cA] fresh) = Some replaced) as Hrun
    by (vm_compute; reflexivity).
  split; [exact Hrun|]. split.
  - exact (proj1 (snapshot_replacement_atomic hostIs pathIs "1.43" [cA] fresh
                    replace_run replaced Hrun 0 (G_Return anyReq [cA] [0])
                    [cA] eq_refl eq_refl)).
  - exact (proj1 (snapshot_replacement_atomic hostIs pathIs "1.43" [cA] fresh
                    replace_run replaced Hrun 1 (G_Return anyReq [cB] [1])
                    [cB] eq_refl eq_refl)).
Defined.

End Witnesses.

(** * Further properties of the code *)

(** ** match: what it reads, and in which order *)

Section MatchMore.
Context {Request : Type}.
Variables MatchHost MatchPath : list string → Request → bool.

Local Abbreviation matchers := (matchers MatchHost MatchPath).
Local Abbreviation match_ := (match_ MatchHost MatchPath).

Lemma match_spec (r : Request) c :
  match_ r c = true ↔
  Labels c !! LabelEnable = Some "true" ∧
  (∀ value, Labels c !! LabelMatchHost = Some value →
            MatchHost [value] r = true) ∧
  (∀ value, Labels c !! LabelMatchPath = Some value →
            MatchPath [value] r = true).
Proof.
  split.
  - intros Hm. pose proof (match_true_enabled _ _ _ _ Hm) as He.
    rewrite (match_enabled _ _ _ _ He) in Hm. simpl in Hm.
    split; [done|]. split; intros value Hv; rewrite Hv in Hm.
    + by destruct (MatchHost [value] r).
    + destruct (Labels c !! LabelMatchHost) as [h|];
        [destruct (MatchHost [h] r); [|done]|];
        by destruct (MatchPath [value] r).
  - intros (He & Hh & Hp). rewrite (match_enabled _ _ _ _ He). simpl.
    destruct (Labels c !! LabelMatchHost) as [h|].
    + rewrite (Hh h eq_refl).
      destruct (Labels c !! LabelMatchPath) as [p|]; [|done].
      by rewrite (Hp p eq_refl).
    + destruct (Labels c !! LabelMatchPath) as [p|]; [|done].
      by rewrite (Hp p eq_refl).
Qed.

(** X1.  [match] accepts a container for a request exactly when the enable
    label is "true", the host matcher accepts the value of the host-match
    label if that label is present, and the path matcher accepts the value
    of the path-match label if that one is present. *)
Theorem match_accepts_iff (r : Request) (c : Container) :
  match_ r c = true ↔
  Labels c !! LabelEnable = Some "true" ∧
  (∀ value, Labels c !! LabelMatchHost = Some value →
            MatchHost [value] r = true) ∧
  (∀ value, Labels c !! LabelMatchPath = Some value →
            MatchPath [value] r = true).
Proof. apply match_spec. Qed.

(** X2.  Whatever order the range over the registry takes, the verdict of
    [match] is the same. *)
Theorem match_any_range_order
    (ms : list (string * (string → Request → bool))) (r : Request)
    (c : Container) :
  ms ≡ₚ matchers → match_in ms r c = match_ r c.
Proof. apply match_in_order_irrelevant. Qed.

(** X3.  Labels other than the enable, host-match and path-match ones have
    no influence: two containers that agree on these three get the same
    verdict for every request. *)
Theorem match_reads_three_labels (r : Request) (c1 c2 : Container) :
  (∀ key, key ∈ match_labels → Labels c1 !! key = Labels c2 !! key) →
  match_ r c1 = match_ r c2.
Proof.
  intros Hsame.
  assert (Labels c1 !! LabelEnable = Labels c2 !! LabelEnable) as He
    by (apply Hsame; unfold match_labels; set_solver).
  assert (Labels c1 !! LabelMatchHost = Labels c2 !! LabelMatchHost) as Hh
    by (apply Hsame; unfold match_labels; set_solver).
  assert (Labels c1 !! LabelMatchPath = Labels c2 !! LabelMatchPath) as Hp
    by (apply Hsame; unfold match_labels; set_solver).
  apply eq_true_iff_eq. rewrite !match_spec. by rewrite He, Hh, Hp.
Qed.

End MatchMore.

(** ** toUpstream: what a call leaves behind *)

(** X4.  A call of [toUpstream] that runs to its end leaves every entry of
    the cache, and the target it points to, as they were. *)
Theorem toUpstream_leaves_entries (c : Container) (g : Globals)
    (id : string) (p : ptr) (target : Upstream) :
  addresses g !! id = Some p → heap g !! p = Some target →
  addresses (toUpstream c g).2 !! id = Some p ∧
  heap (toUpstream c g).2 !! p = Some target.
Proof.
  intros Hid Hp. split; [by apply toUpstream_keeps|].
  eapply prefix_lookup_Some; [exact Hp|apply toUpstream_heap_grows].
Qed.

(** X5.  A failed resolution is not remembered: the call changes neither
    cache nor heap, its error is the one of the missing part, and a record
    with the same identity that has a port and a network resolves on the next
    call, to a new target. *)
Theorem toUpstream_failure_not_cached (c : Container) (g : Globals)
    (err : error) (g' : Globals) :
  toUpstream c g = (Err err, g') →
  g' = g ∧ err = miss_error c ∧
  ∀ c2, ID c2 = ID c → derivable c2 = true →
        (toUpstream c2 g').1 = Ok (length (heap g)) ∧
        addresses (toUpstream c2 g').2 !! ID c = Some (length (heap g)).
Proof.
  intros H. apply toUpstream_Err in H as (-> & -> & Hmiss & _).
  split; [done|]. split; [done|]. intros c2 Hid Hd.
  rewrite <- Hid in Hmiss. rewrite (toUpstream_on_miss _ _ Hmiss).
  destruct (toUpstream_miss_derivable c2 g Hd) as (?&?&?&?&_&_&->).
  simpl. split; [done|]. rewrite <- Hid. apply lookup_insert_eq.
Qed.

(** ** GetUpstreams: whole calls *)


Section GetUpstreamsMore.
Context {Request : Type}.
Variables MatchHost MatchPath : list string → Request → bool.

Local Abbreviation match_ := (match_ MatchHost MatchPath).
Local Abbreviation accepted := (accepted MatchHost MatchPath).
Local Abbreviation GetUpstreams_loop := (GetUpstreams_loop MatchHost MatchPath).
Local Abbreviation GetUpstreams := (GetUpstreams MatchHost MatchPath).

Lemma RUnlock_RLock u : RUnlock (RLock u) = u.
Proof. by destruct u. Qed.

(** Containers that do not match are passed over without any effect. *)
Lemma GetUpstreams_loop_filter (r : Request) cs upstreams u g :
  GetUpstreams_loop r cs upstreams u g =
  GetUpstreams_loop r (filter (λ c, match_ r c = true) cs) upstreams u g.
Proof.
  revert upstreams u g. induction cs as [|c cs IH]; intros upstreams u g;
    [done|].
  rewrite filter_cons. simpl. destruct (match_ r c) eqn:Hm.
  - destruct (decide (true = true)); [|done]. simpl. rewrite Hm.
    destruct (toUpstream c g) as [[p|err] g']; apply IH.
  - destruct (decide (false = true)); [done|]. apply IH.
Qed.

Lemma GetUpstreams_loop_no_match (r : Request) cs upstreams u g :
  Forall (λ c, match_ r c = false) cs →
  GetUpstreams_loop r cs upstreams u g = (upstreams, u, g).
Proof.
  induction 1 as [|c cs Hc _ IH]; simpl; [done|]. by rewrite Hc.
Qed.

(** X6.  When no container of the snapshot matches the request, the call
    returns the empty list and a nil error and changes nothing at all:
    no log entry, no cache entry, no target. *)
Theorem GetUpstreams_nothing_matches (r : Request) (u : Upstreams)
    (g : Globals) :
  Forall (λ c, match_ r c = false) (containers u) →
  GetUpstreams r u g = (([], None), u, g).
Proof.
  intros Hnone. unfold caddy_docker_upstreams.GetUpstreams. simpl.
  rewrite (GetUpstreams_loop_no_match r _ _ _ _ Hnone).
  by rewrite RUnlock_RLock.
Qed.

(** X7.  Containers that do not match the request are invisible to the
    call: targets, error, log and cache are those of the same call on the
    snapshot without them. *)
Theorem GetUpstreams_skips_unmatched (r : Request) (u : Upstreams)
    (g : Globals) :
  let matching := filter (λ c, match_ r c = true) (containers u) in
  let out := GetUpstreams r u g in
  let out' := GetUpstreams r (set_containers matching u) g in
  out.1.1 = out'.1.1 ∧ logger out.1.2 = logger out'.1.2 ∧ out.2 = out'.2.
Proof.
  unfold caddy_docker_upstreams.GetUpstreams. simpl.
  rewrite (GetUpstreams_loop_filter r (containers u)).
  pose proof (GetUpstreams_loop_spec MatchHost MatchPath r
    (filter (λ c, match_ r c = true) (containers u)) [] (RLock u) g) as H1.
  pose proof (GetUpstreams_loop_spec MatchHost MatchPath r
    (filter (λ c, match_ r c = true) (containers u)) []
    (RLock (set_containers (filter (λ c, match_ r c = true) (containers u)) u))
    g) as H2.
  pose proof (GetUpstreams_loop_reads_snapshot MatchHost MatchPath r
    (filter (λ c, match_ r c = true) (containers u)) [] (RLock u)
    (RLock (set_containers (filter (λ c, match_ r c = true) (containers u)) u))
    g) as [Hups Hg].
  destruct (GetUpstreams_loop r _ [] (RLock u) g) as [[ups1 u1] g1].
  destruct (GetUpstreams_loop r _ []
              (RLock (set_containers _ u)) g) as [[ups2 u2] g2].
  specialize (H1 _ _ _ eq_refl) as (_ & _ & _ & Hl1 & _).
  specialize (H2 _ _ _ eq_refl) as (_ & _ & _ & Hl2 & _).
  simpl in *. subst. split; [done|]. split; [|done].
  by rewrite Hl1, Hl2.
Qed.

(** A matching container that has a port and a network is accepted. *)
Lemma accepted_derivable (r : Request) known cs c :
  c ∈ cs → match_ r c = true → derivable c = true → c ∈ accepted r known cs.
Proof.
  intros Hin Hm Hd. revert known.
  induction cs as [|c0 cs IH]; intros known; [by apply elem_of_nil in Hin|].
  apply elem_of_cons in Hin as [<-|Hin]; simpl.
  - rewrite Hm. unfold resolves. rewrite Hd, orb_true_r. by left.
  - destruct (match_ r c0); [destruct (resolves known c0)|]; auto.
    right. auto.
Qed.

(** X8.  Of a call that no other goroutine interrupts: when no identity
    occurs twice in the snapshot, the returned targets are, in snapshot
    order, those cached at its end for exactly the containers that match and
    are either cached at the start or have a port label and a network: the
    other containers have no influence on one another. *)
Theorem GetUpstreams_distinct_identities (r : Request) (u : Upstreams)
    (g : Globals) :
  NoDup (ID <$> containers u) →
  Forall2 (λ c p, addresses (GetUpstreams r u g).2 !! ID c = Some p)
    (filter (λ c, match_ r c && resolves (dom (addresses g)) c = true)
       (containers u))
    (GetUpstreams r u g).1.1.1.
Proof.
  intros Hnd. rewrite <- (accepted_NoDup MatchHost MatchPath) by done.
  destruct (GetUpstreams r u g) as [[[upstreams err] u'] g'] eqn:H.
  by apply GetUpstreams_spec in H as (_ & H & _).
Qed.

(** The target of a container resolved by the loop: its first network
    address joined with its port. *)
Lemma GetUpstreams_loop_dial (r : Request) cs c port name network rest :
  ∀ upstreams u g upstreams' u' g',
    GetUpstreams_loop r cs upstreams u g = (upstreams', u', g') →
    NoDup (ID <$> cs) → c ∈ cs → match_ r c = true →
    addresses g !! ID c = None →
    Labels c !! LabelUpstreamPort = Some port →
    Networks c = (name, network) :: rest →
    ∃ p, addresses g' !! ID c = Some p ∧
         heap g' !! p =
           Some (mkUpstream (JoinHostPort (IPAddress network) port)).
Proof.
  induction cs as [|c0 cs IH];
    intros upstreams u g upstreams' u' g' Hloop Hnd Hin Hm Hmiss Hport Hnet;
    [by apply elem_of_nil in Hin|].
  rewrite fmap_cons in Hnd. apply NoDup_cons in Hnd as [Hc0 Hnd].
  simpl in Hloop. apply elem_of_cons in Hin as [<-|Hin].
  - rewrite Hm, (toUpstream_on_miss _ _ Hmiss) in Hloop.
    unfold toUpstream_miss in Hloop. rewrite Hport, Hnet in Hloop.
    simpl in Hloop.
    apply GetUpstreams_loop_spec in Hloop
      as (new & _ & _ & _ & _ & _ & Hkeep & Hpre).
    simpl in *. exists (length (heap g)). split.
    + apply Hkeep, lookup_insert_eq.
    + eapply prefix_lookup_Some; [|exact Hpre]. apply list_lookup_middle. done.
  - assert (ID c ≠ ID c0) as Hne.
    { intros Heq. apply Hc0. rewrite <- Heq. by apply list_elem_of_fmap_2. }
    destruct (match_ r c0).
    + destruct (toUpstream c0 g) as [[p0|err] g1] eqn:Hres.
      * eapply IH; eauto.
        apply toUpstream_Ok in Hres as (_ & Hother & _).
        by rewrite Hother.
      * apply toUpstream_Err in Hres as (-> & _). eapply IH; eauto.
    + eapply IH; eauto.
Qed.

(** X9.  With distinct identities in the snapshot, a matching container
    that is not cached and has a port label and a network gets a target, in
    the returned list, whose dial string is its first network address joined
    with its port. *)
Theorem GetUpstreams_dial_target (r : Request) (u : Upstreams) (g : Globals)
    (c : Container) (port name : string) (network : EndpointSettings)
    (rest : list (string * EndpointSettings)) :
  NoDup (ID <$> containers u) → c ∈ containers u → match_ r c = true →
  addresses g !! ID c = None →
  Labels c !! LabelUpstreamPort = Some port →
  Networks c = (name, network) :: rest →
  ∃ p, p ∈ (GetUpstreams r u g).1.1.1 ∧
       heap (GetUpstreams r u g).2 !! p =
         Some (mkUpstream (JoinHostPort (IPAddress network) port)).
Proof.
  intros Hnd Hin Hm Hmiss Hport Hnet.
  assert (derivable c = true) as Hd by (unfold derivable; by rewrite Hport, Hnet).
  pose proof (accepted_derivable r (dom (addresses g)) _ _ Hin Hm Hd) as Hacc.
  unfold caddy_docker_upstreams.GetUpstreams in *. simpl.
  destruct (GetUpstreams_loop r (containers u) [] (RLock u) g)
    as [[upstreams u2] g'] eqn:Hloop. simpl.
  destruct (GetUpstreams_loop_dial r _ c port name network rest _ _ _ _ _ _
              Hloop Hnd Hin Hm Hmiss Hport Hnet) as (p & Hp & Hheap).
  apply GetUpstreams_loop_spec in Hloop as (new & -> & Hfa & _).
  apply list_elem_of_lookup in Hacc as [i Hi].
  destruct (Forall2_lookup_l _ _ _ _ _ Hfa Hi) as (q & Hq & Hcq).
  exists p. split; [|done].
  assert (q = p) as -> by congruence.
  simpl. apply list_elem_of_lookup. eauto.
Qed.

End GetUpstreamsMore.

(** ** GetUpstreams: the same request again, and the first request *)

Section GetUpstreamsAgain.
Context {Request : Type}.
Variables MatchHost MatchPath : list string → Request → bool.

Local Abbreviation match_ := (match_ MatchHost MatchPath).
Local Abbreviation accepted := (accepted MatchHost MatchPath).
Local Abbreviation GetUpstreams_loop := (GetUpstreams_loop MatchHost MatchPath).
Local Abbreviation GetUpstreams := (GetUpstreams MatchHost MatchPath).





(** X11.  Provision succeeds only when creating the client, the ping and
    the first listing have all three succeeded; the module then has logged
    the negotiated API version, holds that listing as its snapshot with the
    lock free, the cache untouched and the watcher about to subscribe, and a
    request made before any event of the watcher is answered from that
    listing. *)
Theorem Provision_serves_first_listing (cli : result unit)
    (ping : result string) (listing : result (list Container))
    (g : Globals) (s : @System Request) :
  Provision cli ping listing g = Ok s →
  ∃ api_version first,
    cli = Ok () ∧ ping = Ok api_version ∧ listing = Ok first ∧
    logger (sys_u s) = [InfoConnected api_version] ∧
    containers (sys_u s) = first ∧
    mu (sys_u s) = 0 ∧ sys_g s = g ∧ sys_watcher s = W_Events ∧
    sys_requests s = [] ∧
    ∀ r, Forall2
           (λ c p, addresses (GetUpstreams r (sys_u s) (sys_g s)).2 !! ID c
                   = Some p)
           (accepted r (dom (addresses g)) first)
           (GetUpstreams r (sys_u s) (sys_g s)).1.1.1.
Proof.
  intros (api & first & -> & -> & -> & ->)%Provision_Ok.
  exists api, first. repeat split; try done. intros r. simpl.
  destruct (GetUpstreams r _ g) as [[[ups err] u'] g'] eqn:H.
  by apply GetUpstreams_spec in H as (_ & H & _).
Qed.

(** Provision returns the error of the first call that fails, in the order
    client, ping, listing, and then starts nothing. *)
Lemma Provision_first_failure (cli : result unit) (ping : result string)
    (listing : result (list Container)) (g : Globals) (err : error) :
  Provision (Request:=Request) cli ping listing g = Err err ↔
  cli = Err err ∨
  (∃ c, cli = Ok c) ∧
  (ping = Err err ∨ (∃ v, ping = Ok v) ∧ listing = Err err).
Proof.
  unfold Provision. destruct cli as [c|e1].
  - destruct ping as [v|e2].
    + destruct listing as [l|e3].
      * split; [done|]. by intros [[=]|[_ [[=]|[_ [=]]]]].
      * split.
        -- intros [= ->]. right. split; [eauto|]. right. split; [eauto|done].
        -- by intros [[=]|[_ [[=]|[_ [= ->]]]]].
    + split.
      * intros [= ->]. right. split; [eauto|]. by left.
      * by intros [[=]|[_ [[= ->]|[[v [=]] _]]]].
  - split.
    + intros [= ->]. by left.
    + by intros [[= ->]|[[c [=]] _]].
Qed.


End GetUpstreamsAgain.

(** ** keepUpdated: the snapshot over a whole run of the watcher *)

Lemma keepUpdated_step_next_snapshot ev pc u pc' u' :
  keepUpdated_step ev pc u = Some (pc', u') →
  next_snapshot pc' u' = default (next_snapshot pc u) (ev_listing ev).
Proof.
  destruct pc as [| |held|d|], ev as [|[listing|err]|err| | |]; simpl;
    try done; try (by intros [= <- <-]).
  - destruct (errors_Is_Canceled err); by intros [= <- <-].
  - destruct (decide (mu u = 0)); [|done]. by intros [= <- <-].
Qed.

(** X12.  Over any run of the watcher, the snapshot (or, while the watcher
    waits for the write lock, the listing it is about to install) is the
    result of the most recent successful listing call, and the snapshot it
    started with if there was none: failed listings, subscription errors,
    backoffs and new subscriptions never change it. *)
Theorem keepUpdated_holds_last_listing (evs : list WatcherEvent)
    (pc : WatcherPc) (u : Upstreams) (pc' : WatcherPc) (u' : Upstreams) :
  keepUpdated_run evs pc u = Some (pc', u') →
  last (next_snapshot pc u :: omap ev_listing evs) =
  Some (next_snapshot pc' u').
Proof.
  revert pc u. induction evs as [|ev evs IH]; intros pc u.
  - simpl. by intros [= <- <-].
  - cbn [keepUpdated_run].
    destruct (keepUpdated_step ev pc u) as [[pc1 u1]|] eqn:Hstep; [|done].
    intros Hrun. specialize (IH _ _ Hrun).
    rewrite (keepUpdated_step_next_snapshot _ _ _ _ _ Hstep) in IH.
    replace (omap ev_listing (ev :: evs)) with
      (match ev_listing ev with
       | Some listing => listing :: omap ev_listing evs
       | None => omap ev_listing evs
       end) by reflexivity.
    destruct (ev_listing ev) as [listing|]; [|exact IH].
    rewrite last_cons_cons. exact IH.
Qed.

(** ** The lock and the cache over all interleavings *)

Section InterleavedMore.
Context {Request : Type}.
Variables MatchHost MatchPath : list string → Request → bool.

Local Abbreviation GetUpstreams := (GetUpstreams MatchHost MatchPath).
Local Abbreviation GetUpstreams_run := (GetUpstreams_run MatchHost MatchPath).
Local Abbreviation system_step := (system_step MatchHost MatchPath).
Local Abbreviation system_run := (system_run MatchHost MatchPath).

Lemma readers_none (reqs : list (@RequestPc Request)) :
  (∀ i pc, reqs !! i = Some pc → holds_rlock pc = false) →
  readers reqs = 0.
Proof.
  induction reqs as [|pc reqs IH]; intros H; [done|].
  unfold readers in *. simpl. unfold holding at 1.
  rewrite (H 0 pc eq_refl). simpl. apply IH.
  intros i pc' Hi. by apply (H (S i)).
Qed.

(** X13.  Along every run of the provisioned module the count of read
    locks held on [u.mu] is the number of [GetUpstreams] invocations
    between their lock and their deferred unlock; so once no invocation is
    in between, a watcher waiting for the write lock gets it and installs
    its listing. *)
Theorem lock_held_by_running_requests (api : string)
    (first : list Container) (g : Globals) (tr : list (@Action Request))
    (s : @System Request) :
  system_run tr (provisioned api first g) = Some s →
  mu (sys_u s) = readers (sys_requests s) ∧
  ((∀ i pc, sys_requests s !! i = Some pc → holds_rlock pc = false) →
   ∀ listing, sys_watcher s = W_Lock listing →
     system_step (A_Watcher Ev_Locked) s =
     Some (mkSystem (set_containers listing (sys_u s)) (sys_g s) W_Select
             (sys_requests s))).
Proof.
  intros Hrun.
  pose proof (snapshot_inv_run MatchHost MatchPath first tr _ s
                (snapshot_inv_provisioned api first g) Hrun) as (Hmu & _).
  split; [done|]. intros Hnone listing Hw. simpl. rewrite Hw. simpl.
  rewrite Hmu, (readers_none _ Hnone). done.
Qed.

(** X14.  Whatever the interleaving of requests and watcher, no identity
    ever leaves the cache and no target is ever dropped or changed: the key
    set only grows and the allocated targets are extended at the end. *)
Theorem cache_never_shrinks (tr : list (@Action Request))
    (s s' : @System Request) :
  system_run tr s = Some s' →
  dom (addresses (sys_g s)) ⊆ dom (addresses (sys_g s')) ∧
  heap (sys_g s) `prefix_of` heap (sys_g s').
Proof. apply system_run_keeps_keys. Qed.

(** X15.  An invocation of [GetUpstreams] that no other goroutine
    interrupts returns after at most [2 * n + 3] steps for a snapshot of [n]
    containers, with exactly the targets, the struct and the cache of the
    function [GetUpstreams], the lock count back where it was. *)
Theorem GetUpstreams_uninterrupted (r : Request) (u : Upstreams)
    (g : Globals) (fuel : nat) :
  2 * length (containers u) + 3 ≤ fuel →
  GetUpstreams_run fuel (G_RLock r, u, g) =
  (G_Return r (containers u) (GetUpstreams r u g).1.1.1,
   (GetUpstreams r u g).1.2, (GetUpstreams r u g).2) ∧
  mu (GetUpstreams r u g).1.2 = mu u.
Proof.
  intros Hfuel. split; [by apply GetUpstreams_run_alone|].
  destruct (GetUpstreams r u g) as [[[ups err] u'] g'] eqn:H.
  by apply GetUpstreams_spec in H as (_ & _ & _ & _ & H & _).
Qed.

End InterleavedMore.

(** ** The further properties at concrete inputs *)

Section MoreWitnesses.
Import Scenario.

(** The registry ranged path matcher first. *)
Lemma match_any_range_order_witness :
  reverse (matchers hostIs pathIs) ≡ₚ matchers hostIs pathIs ∧
  match_in (reverse (matchers hostIs pathIs)) otherReq cB =
  match_ hostIs pathIs otherReq cB.
Proof.
  assert (reverse (matchers hostIs pathIs) ≡ₚ matchers hostIs pathIs) as Hp
    by apply reverse_Permutation.
  split; [exact Hp|].
  exact (match_any_range_order hostIs pathIs _ otherReq cB Hp).
Defined.

(** Container A with and without the labels of other tools. *)
Lemma match_reads_three_labels_witness :
  (∀ key, key ∈ match_labels →
          Labels cA !! key = Labels cA_labelled !! key) ∧
  match_ hostIs pathIs anyReq cA = match_ hostIs pathIs anyReq cA_labelled.
Proof.
  assert (∀ key, key ∈ match_labels →
                 Labels cA !! key = Labels cA_labelled !! key) as Hsame.
  { intros key Hin. unfold match_labels in Hin.
    repeat (apply elem_of_cons in Hin as [->|Hin];
            [vm_compute; reflexivity|]).
    by apply elem_of_nil in Hin. }
  split; [exact Hsame|].
  exact (match_reads_three_labels hostIs pathIs anyReq cA cA_labelled Hsame).
Defined.

(** Resolving container B leaves the entry and the target of A alone. *)
Lemma toUpstream_leaves_entries_witness :
  addresses gA !! "a" = Some 0 ∧
  heap gA !! 0 = Some (mkUpstream "10.0.0.5:8080") ∧
  addresses (toUpstream cB gA).2 !! "a" = Some 0 ∧
  heap (toUpstream cB gA).2 !! 0 = Some (mkUpstream "10.0.0.5:8080").
Proof.
  assert (addresses gA !! "a" = Some 0) as Ha by (vm_compute; reflexivity).
  assert (heap gA !! 0 = Some (mkUpstream "10.0.0.5:8080")) as Hh
    by reflexivity.
  split; [exact Ha|]. split; [exact Hh|].
  exact (toUpstream_leaves_entries cB gA "a" 0 _ Ha Hh).
Defined.

(** Container A listed without port and network fails; listed again with
    both, it resolves. *)
Lemma toUpstream_failure_not_cached_witness :
  toUpstream cA' fresh = (Err ErrNoPort, fresh) ∧
  (toUpstream cA fresh).1 = Ok 0 ∧
  addresses (toUpstream cA fresh).2 !! ID cA' = Some 0.
Proof.
  assert (toUpstream cA' fresh = (Err ErrNoPort, fresh)) as Hfail
    by (vm_compute; reflexivity).
  split; [exact Hfail|].
  destruct (toUpstream_failure_not_cached cA' fresh ErrNoPort fresh Hfail)
    as (_ & _ & Hnext).
  apply (Hnext cA); vm_compute; reflexivity.
Defined.

(** A disabled container and one for another host. *)
Lemma GetUpstreams_nothing_matches_witness :
  Forall (λ c, match_ hostIs pathIs otherReq c = false) [cOff; cB] ∧
  GetUpstreams hostIs pathIs otherReq (mkUpstreams [] 0 [cOff; cB]) gA =
    (([], None), mkUpstreams [] 0 [cOff; cB], gA).
Proof.
  assert (Forall (λ c, match_ hostIs pathIs otherReq c = false) [cOff; cB])
    as Hnone
    by (repeat constructor; vm_compute; reflexivity).
  split; [exact Hnone|].
  exact (GetUpstreams_nothing_matches hostIs pathIs otherReq
           (mkUpstreams [] 0 [cOff; cB]) gA Hnone).
Defined.

Lemma GetUpstreams_distinct_identities_witness :
  NoDup (ID <$> containers three) ∧
  Forall2 (λ c p, addresses (GetUpstreams hostIs pathIs anyReq three fresh).2
                    !! ID c = Some p)
    (filter (λ c, match_ hostIs pathIs anyReq c &&
                  resolves (dom (addresses fresh)) c = true)
       (containers three))
    (GetUpstreams hostIs pathIs anyReq three fresh).1.1.1.
Proof.
  assert (NoDup (ID <$> containers three)) as Hnd
    by (apply (bool_decide_unpack _); vm_compute; reflexivity).
  split; [exact Hnd|].
  exact (GetUpstreams_distinct_identities hostIs pathIs anyReq three fresh Hnd).
Defined.

(** Container A among the three gets the target "10.0.0.5:8080". *)
Lemma GetUpstreams_dial_target_witness :
  NoDup (ID <$> containers three) ∧ cA ∈ containers three ∧
  match_ hostIs pathIs anyReq cA = true ∧
  addresses fresh !! ID cA = None ∧
  ∃ p, p ∈ (GetUpstreams hostIs pathIs anyReq three fresh).1.1.1 ∧
       heap (GetUpstreams hostIs pathIs anyReq three fresh).2 !! p =
         Some (mkUpstream (JoinHostPort "10.0.0.5" "8080")).
Proof.
  assert (NoDup (ID <$> containers three)) as Hnd
    by (apply (bool_decide_unpack _); vm_compute; reflexivity).
  assert (cA ∈ containers three) as Hin by (right; left).
  assert (match_ hostIs pathIs anyReq cA = true) as Hm
    by (vm_compute; reflexivity).
  assert (addresses fresh !! ID cA = None) as Hmiss by reflexivity.
  split; [exact Hnd|]. split; [exact Hin|]. split; [exact Hm|].
  split; [exact Hmiss|].
  apply (GetUpstreams_dial_target hostIs pathIs anyReq three fresh cA
           "8080" "bridge" (mkEndpoint "10.0.0.5") [] Hnd Hin Hm Hmiss);
    vm_compute; reflexivity.
Defined.



Lemma Provision_serves_first_listing_witness :
  Provision (Ok ()) (Ok "1.43") (Ok [cA]) fresh = Ok started ∧
  ∃ api_version first,
    Ok () = Ok () ∧ Ok "1.43" = Ok api_version ∧ Ok [cA] = Ok first ∧
    logger (sys_u started) = [InfoConnected api_version] ∧
    containers (sys_u started) = first ∧
    mu (sys_u started) = 0 ∧ sys_g started = fresh ∧
    sys_watcher started = W_Events ∧ sys_requests started = [] ∧
    ∀ r, Forall2
           (λ c p, addresses (GetUpstreams hostIs pathIs r (sys_u started)
                                (sys_g started)).2 !! ID c = Some p)
           (accepted hostIs pathIs r (dom (addresses fresh)) first)
           (GetUpstreams hostIs pathIs r (sys_u started)
              (sys_g started)).1.1.1.
Proof.
  assert (Provision (Ok ()) (Ok "1.43") (Ok [cA]) fresh = Ok started) as Hok
    by reflexivity.
  split; [exact Hok|].
  exact (Provision_serves_first_listing hostIs pathIs _ _ _ _ _ Hok).
Defined.

(** After a listing, a failed re-list, a broken subscription and a second
    listing, the snapshot is the second listing. *)
Lemma keepUpdated_holds_last_listing_witness :
  keepUpdated_run watched W_Events (mkUpstreams [] 0 [cA]) =
    Some (W_Select, watched_end) ∧
  last ([cA] :: omap ev_listing watched) = Some [cB].
Proof.
  assert (keepUpdated_run watched W_Events (mkUpstreams [] 0 [cA]) =
            Some (W_Select, watched_end)) as Hrun
    by (vm_compute; reflexivity).
  split; [exact Hrun|].
  exact (keepUpdated_holds_last_listing watched W_Events
           (mkUpstreams [] 0 [cA]) W_Select watched_end Hrun).
Defined.

(** The request has returned while the watcher waits: the lock count is
    zero and the install step goes through. *)
Lemma lock_held_by_running_requests_witness :
  system_run hostIs pathIs install_ready (provisioned "1.43" [cA] fresh) =
    Some waiting ∧
  mu (sys_u waiting) = readers (sys_requests waiting) ∧
  system_step hostIs pathIs (A_Watcher Ev_Locked) waiting =
    Some (mkSystem (set_containers [cB] (sys_u waiting)) (sys_g waiting)
            W_Select (sys_requests waiting)).
Proof.
  assert (system_run hostIs pathIs install_ready
            (provisioned "1.43" [cA] fresh) = Some waiting) as Hrun
    by (vm_compute; reflexivity).
  split; [exact Hrun|].
  destruct (lock_held_by_running_requests hostIs pathIs "1.43" [cA] fresh
              install_ready waiting Hrun) as [Hmu Hinstall].
  split; [exact Hmu|]. apply Hinstall; [|reflexivity].
  intros [|i] pc; [by intros [= <-]|by intros [=]].
Defined.

Lemma cache_never_shrinks_witness :
  system_run hostIs pathIs replace_run started = Some replaced ∧
  dom (addresses (sys_g started)) ⊆ dom (addresses (sys_g replaced)) ∧
  heap (sys_g started) `prefix_of` heap (sys_g replaced).
Proof.
  assert (system_run hostIs pathIs replace_run started = Some replaced)
    as Hrun by (vm_compute; reflexivity).
  split; [exact Hrun|].
  exact (cache_never_shrinks hostIs pathIs replace_run started replaced Hrun).
Defined.

Lemma GetUpstreams_uninterrupted_witness :
  2 * length (containers three) + 3 ≤ 9 ∧
  GetUpstreams_run hostIs pathIs 9 (G_RLock anyReq, three, fresh) =
    (G_Return anyReq (containers three)
       (GetUpstreams hostIs pathIs anyReq three fresh).1.1.1,
     (GetUpstreams hostIs pathIs anyReq three fresh).1.2,
     (GetUpstreams hostIs pathIs anyReq three fresh).2) ∧
  mu (GetUpstreams hostIs pathIs anyReq three fresh).1.2 = mu three.
Proof.
  assert (2 * length (containers three) + 3 ≤ 9) as Hfuel by (simpl; lia).
  split; [exact Hfuel|].
  exact (GetUpstreams_uninterrupted hostIs pathIs anyReq three fresh 9 Hfuel).
Defined.

End MoreWitnesses.
